(** * chasm: the MIDI synth abstraction library (midi-synths.js)

    A shallow embedding of [MidiManager] and [BaseSynth] and the proofs of
    their encoding and connection contracts.

    Layout: JavaScript numbers and the [Math] functions the library calls;
    the completion/state monad in which methods run; the host objects
    ([MIDIOutput], [MIDIAccess], [navigator], timers); [MidiManager];
    [BaseSynth] and its subclasses; then the theorems. *)

From Stdlib Require Import ZArith QArith Qround Qminmax List String Bool Lia.
From Stdlib Require Import Permutation.
From Stdlib Require Qcanon.
Import ListNotations.

Set Implicit Arguments.

(* ================================================================== *)
(** ** JavaScript numbers *)
(* ================================================================== *)

(** A JavaScript number is an IEEE-754 double.  Every finite double is a
    rational, so a finite number is carried as a [Q]; the three special
    values are constructors of their own.  The negative zero is identified
    with zero: no operation below tells them apart in a way that reaches a
    MIDI byte.

    The operations of this file are exact on doubles wherever a theorem
    speaks about them: [Math.floor], [Math.min] and [Math.max] return a
    double without rounding, [x + 8192] is exact on the integers of
    [-8192, 8191], [c - 1] is exact for a double [c] of [1, 16], and
    [status + channel] is exact when the channel is an integer.  (For a
    channel with a fractional part the double sum may round; [js_add] then
    gives the sum before rounding.)  A statement proved for every [Q] holds
    in particular for every double. *)
Inductive num : Type :=
| NaN
| NegInf
| PosInf
| Fin (q : Q).

(** An integer literal of the source. *)
Definition lit (z : Z) : num := Fin (inject_Z z).

Module Math.

(** [Math.floor(x)]: the specials are returned as they are. *)
Definition floor (x : num) : num :=
  match x with
  | Fin q => Fin (inject_Z (Qfloor q))
  | _ => x
  end.

(** [Math.min(a, b)]: NaN if either argument is NaN. *)
Definition min (a b : num) : num :=
  match a, b with
  | NaN, _ | _, NaN => NaN
  | NegInf, _ | _, NegInf => NegInf
  | PosInf, y => y
  | x, PosInf => x
  | Fin p, Fin q => if Qle_bool p q then a else b
  end.

(** [Math.max(a, b)]: NaN if either argument is NaN. *)
Definition max (a b : num) : num :=
  match a, b with
  | NaN, _ | _, NaN => NaN
  | PosInf, _ | _, PosInf => PosInf
  | NegInf, y => y
  | x, NegInf => x
  | Fin p, Fin q => if Qle_bool q p then a else b
  end.

End Math.

(** [a + b] on numbers. *)
Definition js_add (a b : num) : num :=
  match a, b with
  | NaN, _ | _, NaN => NaN
  | PosInf, NegInf | NegInf, PosInf => NaN
  | PosInf, _ | _, PosInf => PosInf
  | NegInf, _ | _, NegInf => NegInf
  | Fin p, Fin q => Fin (Qred (p + q))
  end.

(** [a - b] on numbers. *)
Definition js_sub (a b : num) : num :=
  match a, b with
  | NaN, _ | _, NaN => NaN
  | PosInf, PosInf | NegInf, NegInf => NaN
  | PosInf, _ | _, NegInf => PosInf
  | NegInf, _ | _, PosInf => NegInf
  | Fin p, Fin q => Fin (Qred (p - q))
  end.

(** [a >= b] and [a < b]: false as soon as one side is NaN. *)
Definition js_ge (a b : num) : bool :=
  match a, b with
  | NaN, _ | _, NaN => false
  | PosInf, _ | _, NegInf => true
  | NegInf, _ | _, PosInf => false
  | Fin p, Fin q => Qle_bool q p
  end.

Definition js_lt (a b : num) : bool :=
  match a, b with
  | NaN, _ | _, NaN => false
  | PosInf, _ | _, NegInf => false
  | NegInf, _ | _, PosInf => true
  | Fin p, Fin q => negb (Qle_bool q p)
  end.

(** Rounding toward zero, the first step of ToInt32. *)
Definition Qtrunc (q : Q) : Z :=
  if Qle_bool 0 q then Qfloor q else Qceiling q.

(** ToInt32 of ECMAScript: NaN and the infinities give 0; a finite number
    is truncated, reduced modulo 2^32 and read as a signed 32-bit integer. *)
Definition ToInt32 (x : num) : Z :=
  match x with
  | Fin q =>
      let m := ((Qtrunc q) mod 2 ^ 32)%Z in
      if (m >=? 2 ^ 31)%Z then (m - 2 ^ 32)%Z else m
  | _ => 0%Z
  end.

(** [a & b]: bitwise and of the two operands after ToInt32. *)
Definition js_and (a b : num) : num :=
  lit (Z.land (ToInt32 a) (ToInt32 b)).

(** [a >> b]: sign-propagating shift of ToInt32(a) by the low five bits of
    the count. *)
Definition js_sar (a b : num) : num :=
  lit (Z.shiftr (ToInt32 a) ((ToInt32 b) mod 32)).

(** The number is an integer of [lo, hi]. *)
Definition is_int_in (lo hi : Z) (x : num) : bool :=
  match x with
  | Fin q =>
      Qeq_bool q (inject_Z (Qfloor q)) &&
      (lo <=? Qfloor q)%Z && (Qfloor q <=? hi)%Z
  | _ => false
  end.

(** A MIDI data byte: an integer of [0, 127]. *)
Definition is_data_byte (x : num) : bool := is_int_in 0 127 x.

(** The number lies in the real interval [lo, hi]. *)
Definition in_interval (lo hi : Z) (x : num) : bool :=
  match x with
  | Fin q => Qle_bool (inject_Z lo) q && Qle_bool q (inject_Z hi)
  | _ => false
  end.

(* ================================================================== *)
(** ** Completions and the method monad *)
(* ================================================================== *)

(** What a [throw] carries. *)
Inductive exn : Type :=
| ReferenceError
| Error (message : string)
| DOMException (reason : string).

(** A method call ends normally with a value or abruptly with a thrown
    exception. *)
Inductive completion (A : Type) : Type :=
| Normal (a : A)
| Throw (e : exn).
Arguments Throw {A} e.

(** A method over a mutable world [W]: the world after the call and how the
    call ended.  Effects made before a [throw] stay. *)
Definition M (W A : Type) : Type := W -> W * completion A.

Definition ret {W A} (a : A) : M W A := fun w => (w, Normal a).

Definition throw {W A} (e : exn) : M W A := fun w => (w, Throw e).

Definition bind {W A B} (m : M W A) (k : A -> M W B) : M W B :=
  fun w =>
    match m w with
    | (w', Normal a) => k a w'
    | (w', Throw e) => (w', Throw e)
    end.

(** [try { m } catch (error) { h error }]. *)
Definition try_catch {W A} (m : M W A) (h : exn -> M W A) : M W A :=
  fun w =>
    match m w with
    | (w', Normal a) => (w', Normal a)
    | (w', Throw e) => h e w'
    end.

Definition get {W} : M W W := fun w => (w, Normal w).

Definition modify {W} (f : W -> W) : M W unit := fun w => (f w, Normal tt).

Declare Scope js_scope.
Delimit Scope js_scope with js.
Notation "x <- m ;; k" := (bind m (fun x => k))
  (at level 100, m at next level, right associativity) : js_scope.
Notation "m ;; k" := (bind m (fun _ => k))
  (at level 100, right associativity) : js_scope.
Open Scope js_scope.

(** The world a call leaves and its completion. *)
Definition world_after {W A} (r : W * completion A) : W := fst r.
Definition outcome {W A} (r : W * completion A) : completion A := snd r.

(** The call ended without throwing. *)
Definition returns {A} (c : completion A) : bool :=
  match c with Normal _ => true | Throw _ => false end.

(* ================================================================== *)
(** ** Host objects *)
(* ================================================================== *)

(** A reference that may be [null] or [undefined]. *)
Inductive ref (A : Type) : Type :=
| Null
| Undefined
| Obj (a : A).
Arguments Null {A}.
Arguments Undefined {A}.

(** The truthiness test of [if (r)] and [!r]. *)
Definition truthy {A} (r : ref A) : bool :=
  match r with Obj _ => true | _ => false end.

(** A [MIDIOutput] of the Web MIDI API: an identity and its [name]. *)
Record MIDIOutput : Type := { port_id : nat; name : string }.

(** A [MIDIAccess]: the output ports in enumeration order (what
    [outputs.values()] yields) and whether an [onstatechange] handler is
    installed. *)
Record MIDIAccess : Type :=
  { outputs : list MIDIOutput; onstatechange : bool }.

(** What the page finds when [initialize] looks for the Web MIDI API. *)
Inductive Navigator : Type :=
| NoNavigator                       (* no [navigator] global *)
| NoRequestMIDIAccess               (* [navigator.requestMIDIAccess] is undefined *)
| Rejects (reason : string)         (* the request throws or its promise rejects *)
| Resolves (access : MIDIAccess).   (* the promise resolves *)

(** [array[i]] for a number [i]: an element for an integer index inside the
    array, [undefined] otherwise. *)
Definition array_get {A} (l : list A) (i : num) : ref A :=
  match i with
  | Fin q =>
      if Qeq_bool q (inject_Z (Qfloor q)) && (0 <=? Qfloor q)%Z then
        match nth_error l (Z.to_nat (Qfloor q)) with
        | Some a => Obj a
        | None => Undefined
        end
      else Undefined
  | _ => Undefined
  end.

(** [array.length] as a number. *)
Definition array_length {A} (l : list A) : num := lit (Z.of_nat (List.length l)).

(* ================================================================== *)
(** ** class MidiManager *)
(* ================================================================== *)

Module MidiManager.

(** The application's [onStateChange] callback, known by a label. *)
Definition Listener : Type := nat.

(** The fields of a [MidiManager]. *)
Record t : Type :=
  { midiAccess : ref MIDIAccess;
    midiOutput : ref MIDIOutput;
    devices : list MIDIOutput;
    onStateChange : ref Listener }.

(** The manager together with what its methods do outside it: the lines
    given to [console.error] and the [onStateChange] callbacks invoked,
    oldest first. *)
Record World : Type :=
  { this : t;
    console : list string;
    notified : list Listener }.

(** [constructor()] *)
Definition constructor : t :=
  {| midiAccess := Null; midiOutput := Null; devices := [];
     onStateChange := Null |}.

Definition fresh : World :=
  {| this := constructor; console := []; notified := [] |}.

Definition set_midiAccess (a : ref MIDIAccess) : M World unit :=
  modify (fun w =>
    {| this := {| midiAccess := a; midiOutput := midiOutput (this w);
                  devices := devices (this w);
                  onStateChange := onStateChange (this w) |};
       console := console w; notified := notified w |}).

Definition set_midiOutput (p : ref MIDIOutput) : M World unit :=
  modify (fun w =>
    {| this := {| midiAccess := midiAccess (this w); midiOutput := p;
                  devices := devices (this w);
                  onStateChange := onStateChange (this w) |};
       console := console w; notified := notified w |}).

Definition set_devices (d : list MIDIOutput) : M World unit :=
  modify (fun w =>
    {| this := {| midiAccess := midiAccess (this w);
                  midiOutput := midiOutput (this w);
                  devices := d;
                  onStateChange := onStateChange (this w) |};
       console := console w; notified := notified w |}).

(** The application assigns [manager.onStateChange]. *)
Definition set_onStateChange (l : ref Listener) : M World unit :=
  modify (fun w =>
    {| this := {| midiAccess := midiAccess (this w);
                  midiOutput := midiOutput (this w);
                  devices := devices (this w);
                  onStateChange := l |};
       console := console w; notified := notified w |}).

Definition console_error (line : string) : M World unit :=
  modify (fun w =>
    {| this := this w; console := console w ++ [line];
       notified := notified w |}).

Definition invoke (l : Listener) : M World unit :=
  modify (fun w =>
    {| this := this w; console := console w;
       notified := notified w ++ [l] |}).

(** Reading [navigator.requestMIDIAccess]: a ReferenceError without the
    global, otherwise whether the property is truthy. *)
Definition has_requestMIDIAccess (navigator : Navigator) : M World bool :=
  match navigator with
  | NoNavigator => throw ReferenceError
  | NoRequestMIDIAccess => ret false
  | Rejects _ | Resolves _ => ret true
  end.

(** [await navigator.requestMIDIAccess()]: the access object, or the
    rejection thrown at the [await]. *)
Definition await_requestMIDIAccess (navigator : Navigator)
  : M World MIDIAccess :=
  match navigator with
  | Resolves access => ret access
  | Rejects reason => throw (DOMException reason)
  | NoNavigator => throw ReferenceError
  | NoRequestMIDIAccess => throw (Error "requestMIDIAccess is not a function")
  end.

(** [updateDeviceList()] *)
Definition updateDeviceList : M World unit :=
  w <- get ;;
  match midiAccess (this w) with
  | Obj access => set_devices (outputs access)
  | _ => set_devices []
  end.

(** [this.midiAccess.onstatechange = () => { ... }] *)
Definition install_onstatechange : M World unit :=
  w <- get ;;
  match midiAccess (this w) with
  | Obj access =>
      set_midiAccess
        (Obj {| outputs := outputs access; onstatechange := true |})
  | _ => throw (Error "Cannot set properties of null")
  end.

(** [initialize()].  Nothing is written before the [await], so the call
    is the continuation of the [await] run on the manager as it is when
    the request settles. *)
Definition initialize (navigator : Navigator) : M World bool :=
  try_catch
    (supported <- has_requestMIDIAccess navigator ;;
     (if negb supported
      then throw (Error "Web MIDI API not supported")
      else ret tt) ;;
     access <- await_requestMIDIAccess navigator ;;
     set_midiAccess (Obj access) ;;
     updateDeviceList ;;
     install_onstatechange ;;
     ret true)
    (fun error =>
       console_error "MIDI access denied:" ;;
       ret false).

(** The platform reports a device added or removed: the access object
    lists [outs] from now on, and the handler installed by [initialize]
    runs. *)
Definition statechange (outs : list MIDIOutput) : M World unit :=
  w <- get ;;
  match midiAccess (this w) with
  | Obj access =>
      set_midiAccess
        (Obj {| outputs := outs; onstatechange := onstatechange access |}) ;;
      if onstatechange access then
        updateDeviceList ;;
        w' <- get ;;
        match onStateChange (this w') with
        | Obj l => invoke l
        | _ => ret tt
        end
      else ret tt
  | _ => ret tt
  end.

(** [getDevices()] *)
Definition getDevices : M World (list MIDIOutput) :=
  w <- get ;; ret (devices (this w)).

(** [connect(deviceIndex)] *)
Definition connect (deviceIndex : num) : M World bool :=
  w <- get ;;
  if negb (truthy (midiAccess (this w))) then ret false
  else if js_ge deviceIndex (lit 0)
          && js_lt deviceIndex (array_length (devices (this w)))
  then
    set_midiOutput (array_get (devices (this w)) deviceIndex) ;;
    ret true
  else ret false.

(** [disconnect()] *)
Definition disconnect : M World unit := set_midiOutput Null.

(** [isConnected()]: [this.midiOutput !== null]. *)
Definition isConnected : M World bool :=
  w <- get ;;
  ret (match midiOutput (this w) with Null => false | _ => true end).

(** [getConnectedDeviceName()] *)
Definition getConnectedDeviceName : M World (ref string) :=
  w <- get ;;
  ret (match midiOutput (this w) with
       | Obj port => Obj (name port)
       | _ => Null
       end).

(** What can happen to a manager, one call or event at a time. *)
Inductive Op : Type :=
| Initialize (navigator : Navigator)
| UpdateDeviceList
| GetDevices
| Connect (deviceIndex : num)
| Disconnect
| IsConnected
| GetConnectedDeviceName
| SetOnStateChange (l : ref Listener)
| StateChange (outs : list MIDIOutput).

Definition run_op (op : Op) (w : World) : World :=
  match op with
  | Initialize navigator => world_after (initialize navigator w)
  | UpdateDeviceList => world_after (updateDeviceList w)
  | GetDevices => world_after (getDevices w)
  | Connect i => world_after (connect i w)
  | Disconnect => world_after (disconnect w)
  | IsConnected => world_after (isConnected w)
  | GetConnectedDeviceName => world_after (getConnectedDeviceName w)
  | SetOnStateChange l => world_after (set_onStateChange l w)
  | StateChange outs => world_after (statechange outs w)
  end.

Definition run_ops (tr : list Op) (w : World) : World :=
  fold_left (fun w op => run_op op w) tr w.

(** Did this step perform [initialize] with the result [true]? *)
Definition initialize_succeeded (op : Op) (w : World) : bool :=
  match op with
  | Initialize navigator =>
      match outcome (initialize navigator w) with
      | Normal true => true
      | _ => false
      end
  | _ => false
  end.

(** Some [initialize] of the history returned [true]. *)
Fixpoint ever_initialized (tr : list Op) (w : World) : bool :=
  match tr with
  | [] => false
  | op :: tr' =>
      initialize_succeeded op w || ever_initialized tr' (run_op op w)
  end.

End MidiManager.

(* ================================================================== *)
(** ** class BaseSynth *)
(* ================================================================== *)

Module BaseSynth.

(** The fields of a [BaseSynth]. *)
Record t : Type :=
  { midiOutput : ref MIDIOutput;
    channel : num }.

(** The arrow function [playNote] hands to [setTimeout]; it closes over
    [this] and [note]. *)
Inductive Callback : Type :=
| ReleaseLater (note : num).

(** A pending one-shot timer. *)
Record Timer : Type := { callback : Callback; delay : num }.

(** The synth together with what its methods do outside it: the calls
    [port.send(data)] made so far, oldest first (a call is recorded even
    when the port throws), and the timers set and not yet fired. *)
Record World : Type :=
  { this : t;
    sent : list (MIDIOutput * list num);
    timers : list Timer }.

(** [constructor(midiOutput, channel = 1)]; [None] is an omitted
    argument. *)
Definition constructor (midiOutput : ref MIDIOutput) (channel : option num)
  : t :=
  let channel := match channel with Some c => c | None => lit 1 end in
  {| midiOutput := midiOutput;
     channel := js_sub (Math.max (lit 1) (Math.min (lit 16) channel)) (lit 1) |}.

(** A world in which nothing was sent and no timer is pending. *)
Definition start (s : t) : World :=
  {| this := s; sent := []; timers := [] |}.

(** The application assigns [synth.midiOutput] (a public field). *)
Definition set_midiOutput (p : ref MIDIOutput) : M World unit :=
  modify (fun w =>
    {| this := {| midiOutput := p; channel := channel (this w) |};
       sent := sent w; timers := timers w |}).

(** [setTimeout(cb, ms)] *)
Definition setTimeout (cb : Callback) (ms : num) : M World unit :=
  modify (fun w =>
    {| this := this w; sent := sent w;
       timers := timers w ++ [{| callback := cb; delay := ms |}] |}).

(** [l] without its [k]-th element. *)
Fixpoint remove_nth {A} (k : nat) (l : list A) : list A :=
  match l, k with
  | [], _ => []
  | _ :: l', O => l'
  | a :: l', S k' => a :: remove_nth k' l'
  end.

(** The send operations of the class, as calls. *)
Inductive SendOp : Type :=
| NoteOn (note velocity : num)
| NoteOff (note : num) (velocity : option num)
| PlayNote (note velocity duration : num)
| SendCC (controller value : num)
| SendProgramChange (program : num)
| SendPitchBend (value : num)
| SendRawMIDI (data : list num).

(** The status nibble an operation encodes; [sendRawMIDI] has none. *)
Definition status_of (op : SendOp) : option Z :=
  match op with
  | NoteOn _ _ | PlayNote _ _ _ => Some 0x90%Z
  | NoteOff _ _ => Some 0x80%Z
  | SendCC _ _ => Some 0xB0%Z
  | SendProgramChange _ => Some 0xC0%Z
  | SendPitchBend _ => Some 0xE0%Z
  | SendRawMIDI _ => None
  end.

(** The arguments an operation passes through
    [Math.max(0, Math.min(127, Math.floor(.)))].  The pitch-bend value is
    not among them: it reaches the message through [&] and [>>]. *)
Definition clamped_inputs (op : SendOp) : list num :=
  match op with
  | NoteOn note velocity | PlayNote note velocity _ => [note; velocity]
  | NoteOff note velocity =>
      [note; match velocity with Some v => v | None => lit 0 end]
  | SendCC controller value => [controller; value]
  | SendProgramChange program => [program]
  | SendPitchBend _ | SendRawMIDI _ => []
  end.

(** The world after one more [port.send(data)]. *)
Definition logged (w : World) (port : MIDIOutput) (data : list num)
  : World :=
  {| this := this w; sent := sent w ++ [(port, data)]; timers := timers w |}.

Section Platform.

(** The port's own [send]: [None] when it returns, [Some e] when it
    throws [e] (a port that went away, bytes the platform refuses). *)
Variable port_send : MIDIOutput -> list num -> option exn.

(** [port.send(data)] *)
Definition send (port : MIDIOutput) (data : list num) : M World unit :=
  modify (fun w => logged w port data) ;;
  match port_send port data with
  | None => ret tt
  | Some e => throw e
  end.

(** [noteOn(note, velocity)] *)
Definition noteOn (note velocity : num) : M World unit :=
  w <- get ;;
  match midiOutput (this w) with
  | Obj port =>
      let clampedNote :=
        Math.max (lit 0) (Math.min (lit 127) (Math.floor note)) in
      let clampedVelocity :=
        Math.max (lit 0) (Math.min (lit 127) (Math.floor velocity)) in
      send port
        [js_add (lit 0x90) (channel (this w)); clampedNote; clampedVelocity]
  | _ => ret tt
  end.

(** [noteOff(note, velocity = 0)]; [None] is an omitted argument. *)
Definition noteOff (note : num) (velocity : option num) : M World unit :=
  let velocity := match velocity with Some v => v | None => lit 0 end in
  w <- get ;;
  match midiOutput (this w) with
  | Obj port =>
      let clampedNote :=
        Math.max (lit 0) (Math.min (lit 127) (Math.floor note)) in
      let clampedVelocity :=
        Math.max (lit 0) (Math.min (lit 127) (Math.floor velocity)) in
      send port
        [js_add (lit 0x80) (channel (this w)); clampedNote; clampedVelocity]
  | _ => ret tt
  end.

(** [playNote(note, velocity, duration)] *)
Definition playNote (note velocity duration : num) : M World unit :=
  w <- get ;;
  if negb (truthy (midiOutput (this w))) then ret tt
  else
    noteOn note velocity ;;
    setTimeout (ReleaseLater note) duration.

(** The body of the arrow function: it reads [this.midiOutput] when it
    runs, not when [playNote] was called. *)
Definition run_callback (cb : Callback) : M World unit :=
  match cb with
  | ReleaseLater note =>
      w <- get ;;
      if truthy (midiOutput (this w))
      then noteOff note (Some (lit 0))
      else ret tt
  end.

(** The host fires the [k]-th pending timer: it leaves the pending list
    and its callback runs. *)
Definition fire (k : nat) : M World unit :=
  w <- get ;;
  match nth_error (timers w) k with
  | Some tm =>
      modify (fun w =>
        {| this := this w; sent := sent w;
           timers := remove_nth k (timers w) |}) ;;
      run_callback (callback tm)
  | None => ret tt
  end.

(** [sendCC(controller, value)] *)
Definition sendCC (controller value : num) : M World unit :=
  w <- get ;;
  match midiOutput (this w) with
  | Obj port =>
      let clampedController :=
        Math.max (lit 0) (Math.min (lit 127) (Math.floor controller)) in
      let clampedValue :=
        Math.max (lit 0) (Math.min (lit 127) (Math.floor value)) in
      send port
        [js_add (lit 0xB0) (channel (this w));
         clampedController; clampedValue]
  | _ => ret tt
  end.

(** [sendProgramChange(program)] *)
Definition sendProgramChange (program : num) : M World unit :=
  w <- get ;;
  match midiOutput (this w) with
  | Obj port =>
      let clampedProgram :=
        Math.max (lit 0) (Math.min (lit 127) (Math.floor program)) in
      send port [js_add (lit 0xC0) (channel (this w)); clampedProgram]
  | _ => ret tt
  end.

(** [sendPitchBend(value)] *)
Definition sendPitchBend (value : num) : M World unit :=
  w <- get ;;
  match midiOutput (this w) with
  | Obj port =>
      let center := lit 8192 in
      let clampedValue :=
        js_add
          (Math.max (lit (-8192)) (Math.min (lit 8191) (Math.floor value)))
          center in
      let lsb := js_and clampedValue (lit 0x7F) in
      let msb := js_and (js_sar clampedValue (lit 7)) (lit 0x7F) in
      send port [js_add (lit 0xE0) (channel (this w)); lsb; msb]
  | _ => ret tt
  end.

(** [sendRawMIDI(data)] *)
Definition sendRawMIDI (data : list num) : M World unit :=
  w <- get ;;
  match midiOutput (this w) with
  | Obj port => send port data
  | _ => ret tt
  end.

Definition call (op : SendOp) : M World unit :=
  match op with
  | NoteOn note velocity => noteOn note velocity
  | NoteOff note velocity => noteOff note velocity
  | PlayNote note velocity duration => playNote note velocity duration
  | SendCC controller value => sendCC controller value
  | SendProgramChange program => sendProgramChange program
  | SendPitchBend value => sendPitchBend value
  | SendRawMIDI data => sendRawMIDI data
  end.

End Platform.

(** A port that takes every message. *)
Definition always_ok : MIDIOutput -> list num -> option exn :=
  fun _ _ => None.

(** A port that throws on every message. *)
Definition always_throws : MIDIOutput -> list num -> option exn :=
  fun _ _ => Some (DOMException "InvalidStateError").

End BaseSynth.

(** The subclasses only choose the default channel. *)
Definition SH4d (midiOutput : ref MIDIOutput) (channel : option num) :=
  BaseSynth.constructor midiOutput
    (Some match channel with Some c => c | None => lit 1 end).

Definition TR8S (midiOutput : ref MIDIOutput) (channel : option num) :=
  BaseSynth.constructor midiOutput
    (Some match channel with Some c => c | None => lit 10 end).

Definition RD6 (midiOutput : ref MIDIOutput) (channel : option num) :=
  BaseSynth.constructor midiOutput
    (Some match channel with Some c => c | None => lit 10 end).

Definition TT303 (midiOutput : ref MIDIOutput) (channel : option num) :=
  BaseSynth.constructor midiOutput
    (Some match channel with Some c => c | None => lit 1 end).

Definition SP404MK2 (midiOutput : ref MIDIOutput) (channel : option num) :=
  BaseSynth.constructor midiOutput
    (Some match channel with Some c => c | None => lit 1 end).

Definition BehringerTD3 (midiOutput : ref MIDIOutput) (channel : option num) :=
  BaseSynth.constructor midiOutput
    (Some match channel with Some c => c | None => lit 1 end).

Definition RD8 (midiOutput : ref MIDIOutput) (channel : option num) :=
  BaseSynth.constructor midiOutput
    (Some match channel with Some c => c | None => lit 10 end).

Definition RD9 (midiOutput : ref MIDIOutput) (channel : option num) :=
  BaseSynth.constructor midiOutput
    (Some match channel with Some c => c | None => lit 10 end).

Definition KorgMinilogueXD (midiOutput : ref MIDIOutput) (channel : option num) :=
  BaseSynth.constructor midiOutput
    (Some match channel with Some c => c | None => lit 1 end).

Definition BossRC600 (midiOutput : ref MIDIOutput) (channel : option num) :=
  BaseSynth.constructor midiOutput
    (Some match channel with Some c => c | None => lit 1 end).

(** The ten instrument classes of the file. *)
Inductive Instrument : Type :=
| I_SH4d | I_TR8S | I_TT303 | I_SP404MK2 | I_BehringerTD3
| I_RD6 | I_RD8 | I_RD9 | I_KorgMinilogueXD | I_BossRC600.

(** [new Class(midiOutput, channel)] for each of them. *)
Definition new_instrument (i : Instrument)
  : ref MIDIOutput -> option num -> BaseSynth.t :=
  match i with
  | I_SH4d => SH4d
  | I_TR8S => TR8S
  | I_TT303 => TT303
  | I_SP404MK2 => SP404MK2
  | I_BehringerTD3 => BehringerTD3
  | I_RD6 => RD6
  | I_RD8 => RD8
  | I_RD9 => RD9
  | I_KorgMinilogueXD => KorgMinilogueXD
  | I_BossRC600 => BossRC600
  end.

(** The drum machines, which the class comments put on channel 10. *)
Definition is_drum_machine (i : Instrument) : bool :=
  match i with
  | I_TR8S | I_RD6 | I_RD8 | I_RD9 => true
  | _ => false
  end.

(* ================================================================== *)
(** ** What the spec says, written down on its own *)
(* ================================================================== *)

(** "Floored, then clamped to [lo, hi]", read on the extended real line;
    NaN has no floor. *)
Definition floor_clamp (lo hi : Z) (x : num) : option Z :=
  match x with
  | NaN => None
  | NegInf => Some lo
  | PosInf => Some hi
  | Fin q => Some (Z.max lo (Z.min hi (Qfloor q)))
  end.

(** "Clamped to [1, 16], then stored 0-based". *)
Definition clamp_channel (c : num) : option Q :=
  match c with
  | NaN => None
  | NegInf => Some 0
  | PosInf => Some (15 # 1)
  | Fin q => Some (Qmax 1 (Qmin (16 # 1) q) - 1)
  end.

(** The unsigned 14-bit pitch-bend value: the bend saturated to
    [-8192, 8191] and biased by 8192. *)
Definition bend14 (v : Z) : Z := Z.max (-8192) (Z.min 8191 v) + 8192.

(** The same for any number: floored and saturated when it has a floor;
    NaN is 0 after ToInt32. *)
Definition bend_of (value : num) : Z :=
  match floor_clamp (-8192) 8191 value with
  | Some z => (z + 8192)%Z
  | None => 0%Z
  end.

(** "0 <= index < len(available)"; NaN is in no range. *)
Definition index_in_range (i : num) (len : nat) : bool :=
  match i with
  | Fin q =>
      Qle_bool 0 q && negb (Qle_bool (inject_Z (Z.of_nat len)) q)
  | _ => false
  end.

(** Two ports to compute with. *)
Definition sh4d_port : MIDIOutput := {| port_id := 0; name := "SH-4d" |}.
Definition tr8s_port : MIDIOutput := {| port_id := 1; name := "TR-8S" |}.

(** The number is finite and equal, as a rational, to [q]. *)
Definition num_is (x : num) (q : Q) : Prop :=
  match x with Fin p => p == q | _ => False end.

Module Mgr := MidiManager.
Import BaseSynth.

(** How a call to the port's [send] ends. *)
Definition send_completion (r : option exn) : completion unit :=
  match r with None => Normal tt | Some e => Throw e end.

(** The source's clamp of a 7-bit argument, as the methods write it. *)
Notation "'clamp7' x" :=
  (Math.max (lit 0) (Math.min (lit 127) (Math.floor x)))
  (at level 10, x at level 9).

Ltac run_method :=
  cbv beta iota zeta delta
    [noteOn noteOff playNote sendCC sendProgramChange sendPitchBend
     sendRawMIDI run_callback call bind get ret].

(** A caller that plays notes one after the other:
    [for (const [note, velocity, duration] of notes)
       synth.playNote(note, velocity, duration)]. *)
Fixpoint play_all (port_send : MIDIOutput -> list num -> option exn)
         (notes : list (num * num * num)) : M World unit :=
  match notes with
  | [] => ret tt
  | (note, velocity, duration) :: rest =>
      playNote port_send note velocity duration ;;
      play_all port_send rest
  end.

(** The host fires the oldest pending timer, [n] times over: one firing
    order among many (the one of timers set with delays that do not
    decrease).  [fire_each] below takes any order. *)
Fixpoint fire_all (port_send : MIDIOutput -> list num -> option exn)
         (n : nat) : M World unit :=
  match n with
  | O => ret tt
  | S n' => fire port_send 0 ;; fire_all port_send n'
  end.

(** The host fires pending timers in an order of its own -- by expiry, as
    [setTimeout] has it, or any other: [ks] gives, firing after firing,
    the place in the pending list of the timer that fires next. *)
Fixpoint fire_each (port_send : MIDIOutput -> list num -> option exn)
         (ks : list nat) : M World unit :=
  match ks with
  | [] => ret tt
  | k :: ks' => fire port_send k ;; fire_each port_send ks'
  end.

(** The entries of [l] that the firing order [ks] takes, in the order it
    takes them, and the entries it leaves. *)
Fixpoint fired {A} (ks : list nat) (l : list A) : list A :=
  match ks with
  | [] => []
  | k :: ks' =>
      match nth_error l k with
      | Some a => a :: fired ks' (remove_nth k l)
      | None => fired ks' l
      end
  end.

Fixpoint unfired {A} (ks : list nat) (l : list A) : list A :=
  match ks with
  | [] => l
  | k :: ks' => unfired ks' (remove_nth k l)
  end.

(** The note-on that [playNote] sends for one entry and the note-off its
    timer sends later, on channel [ch] of [port]. *)
Definition note_on_of (port : MIDIOutput) (ch : num) (n : num * num * num)
  : MIDIOutput * list num :=
  match n with
  | (note, velocity, _) =>
      (port, [js_add (lit 0x90) ch; clamp7 note; clamp7 velocity])
  end.

Definition note_off_of (port : MIDIOutput) (ch : num) (n : num * num * num)
  : MIDIOutput * list num :=
  match n with
  | (note, _, _) => (port, [js_add (lit 0x80) ch; clamp7 note; lit 0])
  end.

(** The timer [playNote] sets for one entry. *)
Definition timer_of (n : num * num * num) : Timer :=
  match n with
  | (note, _, duration) =>
      {| callback := ReleaseLater note; delay := duration |}
  end.

(** The device list mirrors the access handle: with a handle, its change
    handler is installed and [devices] is its list of outputs; without
    one, there are no devices and nothing is connected. *)
Definition in_sync (w : Mgr.World) : Prop :=
  match Mgr.midiAccess (Mgr.this w) with
  | Obj access =>
      onstatechange access = true
      /\ Mgr.devices (Mgr.this w) = outputs access
  | _ =>
      Mgr.devices (Mgr.this w) = []
      /\ Mgr.midiOutput (Mgr.this w) = Null
  end.

(** The steps that assign [this.midiOutput]. *)
Definition assigns_midiOutput (op : Mgr.Op) : bool :=
  match op with
  | Mgr.Connect _ | Mgr.Disconnect => true
  | _ => false
  end.

(** The number has a fractional part. *)
Definition is_fractional (q : Q) : bool :=
  negb (Qeq_bool q (inject_Z (Qfloor q))).

(** The step is not a [connect] with a fractional index. *)
Definition whole_index (op : Mgr.Op) : bool :=
  match op with
  | Mgr.Connect (Fin q) => negb (is_fractional q)
  | _ => true
  end.

(* ================================================================== *)
(** ** Arithmetic of the number model *)
(* ================================================================== *)

Section NumFacts.

Lemma Qle_bool_lit (a b : Z) :
  Qle_bool (inject_Z a) (inject_Z b) = (a <=? b)%Z.
Proof.
  unfold Qle_bool, inject_Z; simpl. now rewrite !Z.mul_1_r.
Qed.

Lemma min_lit (a b : Z) : Math.min (lit a) (lit b) = lit (Z.min a b).
Proof.
  unfold Math.min, lit. rewrite Qle_bool_lit.
  destruct (Z.leb_spec a b); f_equal; f_equal; lia.
Qed.

Lemma max_lit (a b : Z) : Math.max (lit a) (lit b) = lit (Z.max a b).
Proof.
  unfold Math.max, lit. rewrite Qle_bool_lit.
  destruct (Z.leb_spec b a); f_equal; f_equal; lia.
Qed.

Lemma floor_lit (z : Z) : Math.floor (lit z) = lit z.
Proof. unfold Math.floor, lit. now rewrite Qfloor_Z. Qed.

Lemma Qred_inject_Z (z : Z) : Qred (inject_Z z) = inject_Z z.
Proof.
  apply Qcanon.Qred_iff. unfold inject_Z; simpl. apply Z.gcd_1_r.
Qed.

Lemma add_lit (a b : Z) : js_add (lit a) (lit b) = lit (a + b).
Proof.
  unfold js_add, lit. rewrite <- inject_Z_plus. now rewrite Qred_inject_Z.
Qed.

Lemma sub_lit (a b : Z) : js_sub (lit a) (lit b) = lit (a - b).
Proof.
  unfold js_sub, lit, Qminus. rewrite <- inject_Z_opp, <- inject_Z_plus.
  now rewrite Qred_inject_Z.
Qed.

(** The clamp of the source is the clamp of the spec, for every input
    that is not NaN. *)
Lemma clamp_floor (lo hi : Z) (x : num) (z : Z) :
  (lo <= hi)%Z ->
  floor_clamp lo hi x = Some z ->
  Math.max (lit lo) (Math.min (lit hi) (Math.floor x)) = lit z.
Proof.
  intros Hle Hz. destruct x as [| | |q]; simpl in Hz; try discriminate;
    injection Hz as <-.
  - reflexivity.
  - change (Math.max (lit lo) (lit hi) = lit hi).
    rewrite max_lit. f_equal. lia.
  - change (Math.floor (Fin q)) with (lit (Qfloor q)).
    now rewrite min_lit, max_lit.
Qed.

(** NaN goes through the clamp untouched. *)
Lemma clamp_NaN (lo hi : Z) :
  Math.max (lit lo) (Math.min (lit hi) (Math.floor NaN)) = NaN.
Proof. reflexivity. Qed.

Lemma floor_clamp_some (lo hi : Z) (x : num) :
  x <> NaN -> exists z, floor_clamp lo hi x = Some z.
Proof.
  destruct x; intros H; [congruence | simpl; eauto ..].
Qed.

Lemma floor_clamp_range (lo hi : Z) (x : num) (z : Z) :
  (lo <= hi)%Z -> floor_clamp lo hi x = Some z -> (lo <= z <= hi)%Z.
Proof.
  intros Hle Hz. destruct x; simpl in Hz; try discriminate;
    injection Hz as <-; lia.
Qed.

Lemma is_int_in_lit (lo hi z : Z) :
  (lo <= z <= hi)%Z -> is_int_in lo hi (lit z) = true.
Proof.
  intros H. unfold is_int_in, lit. rewrite Qfloor_Z, Qeq_bool_refl.
  simpl. apply andb_true_intro; split; apply Z.leb_le; lia.
Qed.

Lemma is_int_in_inv (lo hi : Z) (x : num) :
  is_int_in lo hi x = true ->
  exists z, num_is x (inject_Z z) /\ (lo <= z <= hi)%Z.
Proof.
  destruct x as [| | |q]; simpl; try discriminate.
  intros H. apply andb_prop in H as [H H3]. apply andb_prop in H as [H1 H2].
  exists (Qfloor q). split.
  - now apply Qeq_bool_eq.
  - apply Z.leb_le in H2, H3. lia.
Qed.

Lemma ToInt32_lit (z : Z) :
  (0 <= z < 2 ^ 31)%Z -> ToInt32 (lit z) = z.
Proof.
  intros H. unfold ToInt32, lit, Qtrunc.
  change (Qle_bool 0 (inject_Z z)) with (Qle_bool (inject_Z 0) (inject_Z z)).
  rewrite Qle_bool_lit.
  replace (0 <=? z)%Z with true by (symmetry; apply Z.leb_le; lia).
  rewrite Qfloor_Z.
  rewrite Z.mod_small by (change (2 ^ 32)%Z with (2 * 2 ^ 31)%Z; lia).
  destruct (Z.geb_spec z (2 ^ 31)); [lia | reflexivity].
Qed.

(** A 14-bit value is its high seven bits times 128 plus its low seven
    bits, and both halves are data bytes. *)
Lemma split14 (c : Z) :
  (0 <= c <= 16383)%Z ->
  let lsb := Z.land c 0x7F in
  let msb := Z.land (Z.shiftr c 7) 0x7F in
  (msb * 128 + lsb = c /\ 0 <= lsb <= 127 /\ 0 <= msb <= 127)%Z.
Proof.
  intros H lsb msb. subst lsb msb.
  change 0x7F%Z with (Z.ones 7).
  rewrite !Z.land_ones by lia. rewrite Z.shiftr_div_pow2 by lia.
  change (2 ^ 7)%Z with 128%Z.
  assert (0 <= c / 128 < 128)%Z.
  { split; [apply Z.div_pos; lia | apply Z.div_lt_upper_bound; lia]. }
  rewrite (Z.mod_small (c / 128)) by lia.
  pose proof (Z.div_mod c 128 ltac:(lia)).
  pose proof (Z.mod_pos_bound c 128 ltac:(lia)).
  change (Z.ones 7) with 127%Z. lia.
Qed.

End NumFacts.

(* ================================================================== *)
(** ** BaseSynth: how each method unfolds *)
(* ================================================================== *)

Section MethodEquations.

Variable port_send : MIDIOutput -> list num -> option exn.

Lemma send_eq (port : MIDIOutput) (data : list num) (w : World) :
  send port_send port data w
  = (logged w port data, send_completion (port_send port data)).
Proof.
  unfold send, bind, modify, send_completion.
  destruct (port_send port data); reflexivity.
Qed.

Lemma sent_after_send (port : MIDIOutput) (data : list num) (w : World) :
  sent (world_after (send port_send port data w))
  = sent w ++ [(port, data)].
Proof. now rewrite send_eq. Qed.

Variables (w : World) (port : MIDIOutput).
Hypothesis bound : midiOutput (this w) = Obj port.

Lemma noteOn_bound (note velocity : num) :
  noteOn port_send note velocity w
  = send port_send port
      [js_add (lit 0x90) (channel (this w)); clamp7 note; clamp7 velocity] w.
Proof. run_method. now rewrite bound. Qed.

Lemma noteOff_bound (note : num) (velocity : option num) :
  noteOff port_send note velocity w
  = send port_send port
      [js_add (lit 0x80) (channel (this w)); clamp7 note;
       clamp7 (match velocity with Some v => v | None => lit 0 end)] w.
Proof. run_method. now rewrite bound. Qed.

Lemma sendCC_bound (controller value : num) :
  sendCC port_send controller value w
  = send port_send port
      [js_add (lit 0xB0) (channel (this w));
       clamp7 controller; clamp7 value] w.
Proof. run_method. now rewrite bound. Qed.

Lemma sendProgramChange_bound (program : num) :
  sendProgramChange port_send program w
  = send port_send port
      [js_add (lit 0xC0) (channel (this w)); clamp7 program] w.
Proof. run_method. now rewrite bound. Qed.

Lemma sendRawMIDI_bound (data : list num) :
  sendRawMIDI port_send data w = send port_send port data w.
Proof. run_method. now rewrite bound. Qed.

(** [playNote] on a bound port: the note-on first; the timer is set only
    if the port's [send] returned. *)
Lemma playNote_bound (note velocity duration : num) :
  let msg :=
    [js_add (lit 0x90) (channel (this w)); clamp7 note; clamp7 velocity] in
  playNote port_send note velocity duration w
  = match port_send port msg with
    | None =>
        ({| this := this w;
            sent := sent w ++ [(port, msg)];
            timers := timers w
                      ++ [{| callback := ReleaseLater note;
                             delay := duration |}] |},
         Normal tt)
    | Some e => (logged w port msg, Throw e)
    end.
Proof.
  intros msg. unfold playNote, bind, get. rewrite bound. cbn [truthy negb].
  rewrite noteOn_bound, send_eq. fold msg.
  destruct (port_send port msg); reflexivity.
Qed.

(** The pitch-bend message for any value. *)
Lemma sendPitchBend_bound (value : num) :
  let c := bend_of value in
  sendPitchBend port_send value w
  = send port_send port
      [js_add (lit 0xE0) (channel (this w));
       lit (Z.land c 0x7F); lit (Z.land (Z.shiftr c 7) 0x7F)] w
  /\ (0 <= c <= 16383)%Z.
Proof.
  intros c. run_method. rewrite bound.
  assert (Hc : (0 <= c <= 16383)%Z).
  { subst c. unfold bend_of.
    destruct (floor_clamp (-8192) 8191 value) as [z|] eqn:E; [ | lia].
    apply floor_clamp_range in E; lia. }
  split; [ | exact Hc].
  assert (Hv : ToInt32
                 (js_add (Math.max (lit (-8192))
                            (Math.min (lit 8191) (Math.floor value)))
                    (lit 8192)) = c).
  { subst c. unfold bend_of in *.
    destruct (floor_clamp (-8192) 8191 value) as [z|] eqn:E.
    - assert (Hle : (-8192 <= 8191)%Z) by lia.
      rewrite (@clamp_floor (-8192) 8191 value z Hle E).
      rewrite add_lit.
      apply ToInt32_lit. lia.
    - destruct value; try discriminate. reflexivity. }
  unfold js_and, js_sar. rewrite Hv.
  assert (H7 : (0 <= Z.shiftr c 7 < 2 ^ 31)%Z).
  { rewrite Z.shiftr_div_pow2 by lia. split.
    - apply Z.div_pos; lia.
    - apply Z.div_lt_upper_bound; lia. }
  change (ToInt32 (lit 7) mod 32)%Z with 7%Z.
  change (ToInt32 (lit 0x7F)) with 0x7F%Z.
  now rewrite (ToInt32_lit H7).
Qed.

End MethodEquations.

(** The deferred release, when its timer fires. *)
Lemma fire_release (port_send : MIDIOutput -> list num -> option exn)
      (w : World) (k : nat) (note ms : num) :
  nth_error (timers w) k = Some {| callback := ReleaseLater note; delay := ms |} ->
  let w' :=
    {| this := this w; sent := sent w; timers := remove_nth k (timers w) |} in
  fire port_send k w
  = match midiOutput (this w) with
    | Obj port =>
        send port_send port
          [js_add (lit 0x80) (channel (this w)); clamp7 note; lit 0] w'
    | _ => (w', Normal tt)
    end.
Proof.
  intros H w'. unfold fire, bind, get. rewrite H.
  cbn [modify callback run_callback]. unfold bind, get.
  change (this {| this := this w; sent := sent w;
                  timers := remove_nth k (timers w) |}) with (this w).
  destruct (midiOutput (this w)) as [| |port] eqn:E; cbn [truthy];
    try reflexivity.
  fold w'. rewrite (@noteOff_bound port_send w' port E). reflexivity.
Qed.

(** A clamped argument that is not NaN is a data byte. *)
Lemma clamp7_byte (x : num) :
  x <> NaN ->
  exists a, floor_clamp 0 127 x = Some a /\ clamp7 x = lit a
            /\ (0 <= a <= 127)%Z /\ is_data_byte (lit a) = true.
Proof.
  intros Hx. destruct (floor_clamp_some 0 127 Hx) as [a Ha].
  assert (Hle : (0 <= 127)%Z) by lia.
  pose proof (floor_clamp_range _ Hle Ha) as Hr.
  exists a. repeat split; try tauto.
  - exact (@clamp_floor 0 127 x a Hle Ha).
  - now apply is_int_in_lit.
Qed.

(* ================================================================== *)
(** ** BaseSynth: encodings *)
(* ================================================================== *)

(** C1, as stated, fails at NaN, which is a number of the language:
    [noteOn(NaN, 100)] on a bound port sends a message whose note byte is
    NaN, not an integer of [0, 127]. *)
Lemma noteOn_NaN_sends_NaN :
  sent (world_after
          (noteOn always_ok NaN (lit 100)
             (start (constructor (Obj sh4d_port) None))))
  = [(sh4d_port, [lit 0x90; NaN; lit 100])]
  /\ is_data_byte NaN = false.
Proof. split; reflexivity. Qed.

(** C1 (amended): for every input other than NaN -- negative, fractional,
    above 127 or infinite -- the data bytes that [noteOn], [noteOff],
    [sendCC] and [sendProgramChange] send to the bound port are the input
    floored and clamped to [0, 127], hence integers of [0, 127]. *)
Theorem data_bytes_floored_and_clamped
        (port_send : MIDIOutput -> list num -> option exn)
        (w : World) (port : MIDIOutput) (x y : num) :
  midiOutput (this w) = Obj port ->
  x <> NaN -> y <> NaN ->
  exists a b : Z,
    floor_clamp 0 127 x = Some a /\ floor_clamp 0 127 y = Some b
    /\ (0 <= a <= 127)%Z /\ (0 <= b <= 127)%Z
    /\ is_data_byte (lit a) = true /\ is_data_byte (lit b) = true
    /\ sent (world_after (noteOn port_send x y w))
       = sent w ++ [(port, [js_add (lit 0x90) (channel (this w)); lit a; lit b])]
    /\ sent (world_after (noteOff port_send x (Some y) w))
       = sent w ++ [(port, [js_add (lit 0x80) (channel (this w)); lit a; lit b])]
    /\ sent (world_after (noteOff port_send x None w))
       = sent w ++ [(port, [js_add (lit 0x80) (channel (this w)); lit a; lit 0])]
    /\ sent (world_after (sendCC port_send x y w))
       = sent w ++ [(port, [js_add (lit 0xB0) (channel (this w)); lit a; lit b])]
    /\ sent (world_after (sendProgramChange port_send x w))
       = sent w ++ [(port, [js_add (lit 0xC0) (channel (this w)); lit a])].
Proof.
  intros Hp Hx Hy.
  destruct (clamp7_byte Hx) as (a & Ha & Ea & Ra & Ba).
  destruct (clamp7_byte Hy) as (b & Hb & Eb & Rb & Bb).
  exists a, b.
  rewrite (@noteOn_bound port_send w port Hp),
    !(@noteOff_bound port_send w port Hp),
    (@sendCC_bound port_send w port Hp),
    (@sendProgramChange_bound port_send w port Hp).
  rewrite !sent_after_send, Ea, Eb.
  change (clamp7 (lit 0)) with (lit 0). tauto.
Qed.

Lemma data_bytes_floored_and_clamped_witness :
  sent (world_after
          (noteOn always_ok (Fin (-7 # 2)) (Fin (401 # 2))
             (start (constructor (Obj sh4d_port) None))))
  = [(sh4d_port, [lit 0x90; lit 0; lit 127])].
Proof.
  destruct (@data_bytes_floored_and_clamped always_ok
              (start (constructor (Obj sh4d_port) None)) sh4d_port
              (Fin (-7 # 2)) (Fin (401 # 2)))
    as (a & b & Ha & Hb & _ & _ & _ & _ & Hon & _);
    [reflexivity | discriminate | discriminate | ].
  vm_compute in Ha, Hb. injection Ha as <-. injection Hb as <-.
  exact Hon.
Defined.

(** C2: for every integer [v], [sendPitchBend(v)] sends [lsb] and [msb]
    with [msb * 128 + lsb] equal to the saturated, biased bend: [v + 8192]
    for [v] in [-8192, 8191], 0 below and 16383 above; both are 7-bit
    bytes. *)
Theorem pitch_bend_split
        (port_send : MIDIOutput -> list num -> option exn)
        (w : World) (port : MIDIOutput) (v : Z) :
  midiOutput (this w) = Obj port ->
  let c := bend14 v in
  let lsb := Z.land c 0x7F in
  let msb := Z.land (Z.shiftr c 7) 0x7F in
  sent (world_after (sendPitchBend port_send (lit v) w))
  = sent w ++ [(port, [js_add (lit 0xE0) (channel (this w)); lit lsb; lit msb])]
  /\ (msb * 128 + lsb = c)%Z
  /\ (0 <= lsb <= 127)%Z /\ (0 <= msb <= 127)%Z
  /\ c = (if (v <? -8192)%Z then 0
          else if (8191 <? v)%Z then 16383
          else v + 8192)%Z.
Proof.
  intros Hp c lsb msb.
  destruct (@sendPitchBend_bound port_send w port Hp (lit v)) as [E R].
  assert (Hc : bend_of (lit v) = c).
  { unfold bend_of, floor_clamp, lit. now rewrite Qfloor_Z. }
  rewrite Hc in E, R. rewrite E, sent_after_send.
  destruct (split14 R) as (S1 & S2 & S3).
  repeat split; try assumption; try lia.
  subst c. unfold bend14.
  destruct (Z.ltb_spec v (-8192)); [lia | ].
  destruct (Z.ltb_spec 8191 v); lia.
Qed.

Lemma pitch_bend_split_witness :
  sent (world_after
          (sendPitchBend always_ok (lit (-1))
             (start (constructor (Obj sh4d_port) None))))
  = [(sh4d_port, [lit 0xE0; lit 127; lit 63])]
  /\ (63 * 128 + 127 = -1 + 8192)%Z.
Proof.
  pose proof (@pitch_bend_split always_ok
                (start (constructor (Obj sh4d_port) None)) sh4d_port (-1)
                eq_refl) as H.
  cbv zeta in H. destruct H as (H & _). split; [exact H | reflexivity].
Defined.

(** C7: [noteOn(60, 100)] sends [0x90, 60, 100] from a synth made with
    channel 1 and [0x99, 60, 100] from one made with channel 10 (or from a
    TR8S left at its default channel). *)
Theorem noteOn_60_100
        (port_send : MIDIOutput -> list num -> option exn)
        (port : MIDIOutput) :
  sent (world_after
          (noteOn port_send (lit 60) (lit 100)
             (start (constructor (Obj port) (Some (lit 1))))))
  = [(port, [lit 0x90; lit 60; lit 100])]
  /\ sent (world_after
             (noteOn port_send (lit 60) (lit 100)
                (start (constructor (Obj port) (Some (lit 10))))))
     = [(port, [lit 0x99; lit 60; lit 100])]
  /\ sent (world_after
             (noteOn port_send (lit 60) (lit 100)
                (start (TR8S (Obj port) None))))
     = [(port, [lit 0x99; lit 60; lit 100])].
Proof.
  repeat split;
    match goal with
    | |- sent (world_after (noteOn _ _ _ ?w)) = _ =>
        rewrite (@noteOn_bound port_send w port eq_refl), sent_after_send;
        reflexivity
    end.
Qed.

(** C4: on a synth whose port is null (or undefined) every send operation
    returns normally and leaves the world as it was: nothing is sent to
    any port, no timer is set, nothing is thrown -- whatever the ports
    would have done. *)
Theorem unbound_send_is_skipped
        (port_send : MIDIOutput -> list num -> option exn)
        (op : SendOp) (w : World) :
  truthy (midiOutput (this w)) = false ->
  call port_send op w = (w, Normal tt).
Proof.
  intros H. destruct op; run_method;
    destruct (midiOutput (this w)); try discriminate; reflexivity.
Qed.

Lemma unbound_send_is_skipped_witness :
  call always_throws (PlayNote (lit 60) (lit 100) (lit 50))
    (start (constructor Null (Some (lit 1))))
  = (start (constructor Null (Some (lit 1))), Normal tt).
Proof.
  apply (@unbound_send_is_skipped always_throws
           (PlayNote (lit 60) (lit 100) (lit 50))
           (start (constructor Null (Some (lit 1))))).
  reflexivity.
Defined.

(** C3, as stated, fails at the first byte of every encoded message: the
    status byte of [noteOn(60, 100)] on channel 1 is 0x90 = 144, above
    127.  Besides, [sendRawMIDI] forwards any byte it is given, and a NaN
    argument of [sendCC] is sent as NaN. *)
Lemma status_byte_above_127 :
  sent (world_after
          (call always_ok (NoteOn (lit 60) (lit 100))
             (start (constructor (Obj sh4d_port) (Some (lit 1))))))
  = [(sh4d_port, [lit 144; lit 60; lit 100])]
  /\ is_data_byte (lit 144) = false
  /\ sent (world_after
             (call always_ok (SendRawMIDI [lit 255; lit 300])
                (start (constructor (Obj sh4d_port) (Some (lit 1))))))
     = [(sh4d_port, [lit 255; lit 300])]
  /\ sent (world_after
             (call always_ok (SendCC (lit 7) NaN)
                (start (constructor (Obj sh4d_port) (Some (lit 1))))))
     = [(sh4d_port, [lit 176; lit 7; NaN])].
Proof. repeat split; reflexivity. Qed.

(** C3 (amended): for every synth with a bound port and every encoding
    operation ([noteOn], [noteOff], [playNote], [sendCC],
    [sendProgramChange], [sendPitchBend]) whose clamped arguments are not
    NaN, the message sent is the status byte -- the operation's nibble
    plus the stored channel, an integer of [128, 239] for an integer
    channel of [0, 15] -- followed by data bytes that are all integers of
    [0, 127]; the pitch-bend value arrives as two such bytes whatever it
    is.  [sendRawMIDI] sends its bytes as given. *)
Theorem outbound_bytes
        (port_send : MIDIOutput -> list num -> option exn)
        (w : World) (port : MIDIOutput) (op : SendOp) (nibble : Z) :
  midiOutput (this w) = Obj port ->
  status_of op = Some nibble ->
  Forall (fun x => x <> NaN) (clamped_inputs op) ->
  exists data : list num,
    sent (world_after (call port_send op w))
    = sent w ++ [(port, js_add (lit nibble) (channel (this w)) :: data)]
    /\ forallb is_data_byte data = true
    /\ (forall k : Z,
          channel (this w) = lit k -> (0 <= k <= 15)%Z ->
          is_int_in 128 239 (js_add (lit nibble) (channel (this w))) = true)
    /\ (forall raw : list num,
          sent (world_after (call port_send (SendRawMIDI raw) w))
          = sent w ++ [(port, raw)]).
Proof.
  intros Hp Hs Hin.
  assert (Hstatus : forall k : Z,
             channel (this w) = lit k -> (0 <= k <= 15)%Z ->
             is_int_in 128 239 (js_add (lit nibble) (channel (this w))) = true).
  { intros k -> Hk. rewrite add_lit. apply is_int_in_lit.
    destruct op; simpl in Hs; inversion Hs; subst; lia. }
  assert (Hraw : forall raw : list num,
             sent (world_after (call port_send (SendRawMIDI raw) w))
             = sent w ++ [(port, raw)]).
  { intros raw. cbn [call].
    now rewrite (@sendRawMIDI_bound port_send w port Hp), sent_after_send. }
  destruct op; simpl in Hs; inversion Hs; subst nibble; clear Hs;
    cbn [call clamped_inputs] in *;
    repeat match goal with
           | H : Forall _ (_ :: _) |- _ => inversion H; clear H; subst
           | H : Forall _ [] |- _ => clear H
           end;
    repeat match goal with
           | H : ?x <> NaN |- _ =>
               let a := fresh "a" in
               let E := fresh "E" in
               let B := fresh "B" in
               destruct (clamp7_byte H) as (a & _ & E & _ & B); clear H
           end.
  - (* noteOn *)
    rewrite (@noteOn_bound port_send w port Hp), sent_after_send.
    eexists; repeat split; [ | exact Hstatus | exact Hraw].
    rewrite E, E0; cbn [forallb]. now rewrite B, B0.
  - (* noteOff *)
    rewrite (@noteOff_bound port_send w port Hp), sent_after_send.
    eexists; repeat split; [ | exact Hstatus | exact Hraw].
    rewrite E, E0; cbn [forallb]. now rewrite B, B0.
  - (* playNote *)
    pose proof (@playNote_bound port_send w port Hp note velocity duration)
      as Hplay.
    cbv zeta in Hplay. rewrite Hplay.
    exists [clamp7 note; clamp7 velocity].
    repeat split; [ | | exact Hstatus | exact Hraw].
    + destruct (port_send port _); reflexivity.
    + rewrite E, E0; cbn [forallb]. now rewrite B, B0.
  - (* sendCC *)
    rewrite (@sendCC_bound port_send w port Hp), sent_after_send.
    eexists; repeat split; [ | exact Hstatus | exact Hraw].
    rewrite E, E0; cbn [forallb]. now rewrite B, B0.
  - (* sendProgramChange *)
    rewrite (@sendProgramChange_bound port_send w port Hp), sent_after_send.
    eexists; repeat split; [ | exact Hstatus | exact Hraw].
    rewrite E; cbn [forallb]. now rewrite B.
  - (* sendPitchBend *)
    destruct (@sendPitchBend_bound port_send w port Hp value) as [Eq R].
    rewrite Eq, sent_after_send.
    destruct (split14 R) as (_ & S1 & S2).
    eexists; repeat split; [ | exact Hstatus | exact Hraw].
    cbn [forallb]. unfold is_data_byte.
    now rewrite !is_int_in_lit by assumption.
Qed.

Lemma outbound_bytes_witness :
  exists data : list num,
    sent (world_after
            (call always_ok (SendPitchBend NaN)
               (start (constructor (Obj sh4d_port) (Some (lit 16))))))
    = [(sh4d_port, lit 0xEF :: data)]
    /\ forallb is_data_byte data = true
    /\ is_int_in 128 239 (lit 0xEF) = true.
Proof.
  destruct (@outbound_bytes always_ok
              (start (constructor (Obj sh4d_port) (Some (lit 16))))
              sh4d_port (SendPitchBend NaN) 0xE0
              eq_refl eq_refl (Forall_nil _))
    as (data & Hsent & Hdata & Hstatus & _).
  exists data. split; [ | split].
  - exact Hsent.
  - exact Hdata.
  - apply (Hstatus 15%Z); [reflexivity | lia].
Defined.

(* ================================================================== *)
(** ** BaseSynth: the stored channel *)
(* ================================================================== *)

(** The clamp of the constructor on a finite channel. *)
Lemma channel_clamp (q : Q) :
  exists m : Q,
    Math.max (lit 1) (Math.min (lit 16) (Fin q)) = Fin m
    /\ m == Qmax 1 (Qmin (16 # 1) q)
    /\ 1 <= m <= 16 # 1.
Proof.
  unfold Math.min, lit.
  destruct (Qle_bool (inject_Z 16) q) eqn:E16.
  - apply Qle_bool_iff in E16. change (inject_Z 16) with (16 # 1) in *.
    exists (16 # 1). split; [reflexivity | split].
    + rewrite (Q.min_l _ _ E16). symmetry. apply Q.max_r. discriminate.
    + split; discriminate.
  - assert (Hq : q <= 16 # 1).
    { apply Qnot_lt_le. intros Hlt. apply Qlt_le_weak in Hlt.
      apply Qle_bool_iff in Hlt. change (inject_Z 16) with (16 # 1) in E16.
      congruence. }
    unfold Math.max. destruct (Qle_bool q (inject_Z 1)) eqn:E1.
    + apply Qle_bool_iff in E1. change (inject_Z 1) with 1 in *.
      exists 1. split; [reflexivity | split].
      * rewrite (Q.min_r _ _ Hq). symmetry. now apply Q.max_l.
      * split; discriminate.
    + assert (H1 : 1 <= q).
      { apply Qnot_lt_le. intros Hlt. apply Qlt_le_weak in Hlt.
        apply Qle_bool_iff in Hlt. change (inject_Z 1) with 1 in E1.
        congruence. }
      exists q. split; [reflexivity | split].
      * rewrite (Q.min_r _ _ Hq). symmetry. now apply Q.max_r.
      * now split.
Qed.

(** C6, as stated, fails at NaN: the stored channel is then NaN, which
    lies in no interval. *)
Lemma channel_NaN_is_stored_as_NaN :
  channel (constructor (Obj sh4d_port) (Some NaN)) = NaN
  /\ in_interval 0 15 NaN = false.
Proof. split; reflexivity. Qed.

(** C6 (amended): for every channel argument other than NaN the stored
    channel is the argument clamped to [1, 16], minus 1, and lies in
    [0, 15]; for an integer argument [z] it is the integer
    [max(1, min(16, z)) - 1]; raw values 0, 1, 16, 17, -5 give 0, 0, 15,
    15, 0, and an omitted argument gives 0. *)
Theorem stored_channel (port : ref MIDIOutput) (c : num) :
  c <> NaN ->
  (exists q q' : Q,
      channel (constructor port (Some c)) = Fin q
      /\ clamp_channel c = Some q'
      /\ q == q'
      /\ in_interval 0 15 (channel (constructor port (Some c))) = true)
  /\ (forall z : Z,
        channel (constructor port (Some (lit z)))
        = lit (Z.max 1 (Z.min 16 z) - 1)
        /\ (0 <= Z.max 1 (Z.min 16 z) - 1 <= 15)%Z)
  /\ map (fun raw => channel (constructor port (Some (lit raw))))
         [0; 1; 16; 17; -5]%Z
     = [lit 0; lit 0; lit 15; lit 15; lit 0]
  /\ channel (constructor port None) = lit 0.
Proof.
  intros Hc. split; [ | split; [ | split; reflexivity]].
  - destruct c as [| | |q]; [congruence | | | ].
    + exists 0, 0. repeat split; reflexivity.
    + exists (15 # 1), (15 # 1). repeat split; reflexivity.
    + destruct (channel_clamp q) as (m & Em & Hm & Hlo & Hhi).
      exists (Qred (m - 1)), (Qmax 1 (Qmin (16 # 1) q) - 1).
      unfold constructor; cbn [channel]. rewrite Em.
      change (js_sub (Fin m) (lit 1)) with (Fin (Qred (m - inject_Z 1))).
      change (inject_Z 1) with 1.
      repeat split.
      * rewrite Qred_correct. now rewrite Hm.
      * unfold in_interval. apply andb_true_intro; split;
          apply Qle_bool_iff; rewrite Qred_correct.
        -- change (inject_Z 0) with (1 - 1). apply Qplus_le_l. exact Hlo.
        -- change (inject_Z 15) with ((16 # 1) - 1). apply Qplus_le_l.
           exact Hhi.
  - intros z. unfold constructor; cbn [channel].
    rewrite min_lit, max_lit, sub_lit. split; [reflexivity | lia].
Qed.

Lemma stored_channel_witness :
  in_interval 0 15 (channel (constructor (Obj sh4d_port) (Some (Fin (33 # 2)))))
  = true
  /\ channel (constructor (Obj sh4d_port) (Some (lit 17))) = lit 15.
Proof.
  destruct (@stored_channel (Obj sh4d_port) (Fin (33 # 2)))
    as ((q & q' & _ & _ & _ & Hin) & Hz & _); [discriminate | ].
  split; [exact Hin | exact (proj1 (Hz 17%Z))].
Defined.

(* ================================================================== *)
(** ** BaseSynth: playNote and its timer *)
(* ================================================================== *)

(** Taking the [k]-th element out keeps what is before it and what is
    after it, and nothing else. *)
Lemma remove_nth_firstn_skipn (A : Type) (k : nat) (l : list A) :
  remove_nth k l = firstn k l ++ skipn (S k) l.
Proof.
  revert k. induction l as [|a l IH]; intros k.
  - destruct k; reflexivity.
  - destruct k as [|k]; [reflexivity | ].
    cbn [remove_nth firstn app]. rewrite IH. reflexivity.
Qed.

Lemma remove_nth_length (A : Type) (k : nat) (l : list A) (a : A) :
  nth_error l k = Some a ->
  S (List.length (remove_nth k l)) = List.length l.
Proof.
  revert k. induction l as [|b l IH]; intros k H.
  - destruct k; discriminate.
  - destruct k as [|k]; [reflexivity | ].
    cbn [remove_nth List.length]. f_equal. now apply IH.
Qed.

(** C8, as stated, fails on a bound port whose [send] throws: the note-on
    is handed to the port, the exception leaves [playNote] before
    [setTimeout] is reached, so no timer is pending and no note-off is
    ever sent although the port stays bound. *)
Lemma playNote_on_throwing_port_sets_no_timer :
  outcome
    (playNote always_throws (lit 60) (lit 100) (lit 50)
       (start (constructor (Obj sh4d_port) (Some (lit 1)))))
  = Throw (DOMException "InvalidStateError")
  /\ sent (world_after
             (playNote always_throws (lit 60) (lit 100) (lit 50)
                (start (constructor (Obj sh4d_port) (Some (lit 1))))))
     = [(sh4d_port, [lit 0x90; lit 60; lit 100])]
  /\ timers (world_after
               (playNote always_throws (lit 60) (lit 100) (lit 50)
                  (start (constructor (Obj sh4d_port) (Some (lit 1))))))
     = []
  /\ midiOutput
       (this (world_after
                (playNote always_throws (lit 60) (lit 100) (lit 50)
                   (start (constructor (Obj sh4d_port) (Some (lit 1)))))))
     = Obj sh4d_port
  /\ sent (world_after
             (fire always_ok 0
                (world_after
                   (playNote always_throws (lit 60) (lit 100) (lit 50)
                      (start (constructor (Obj sh4d_port) (Some (lit 1))))))))
     = [(sh4d_port, [lit 0x90; lit 60; lit 100])].
Proof. repeat split; reflexivity. Qed.

(** C8 (amended): [playNote(note, velocity, duration)] on a bound port
    hands the note-on to the port's [send] at once and leaves the synth's
    fields alone.  If that [send] returns, [playNote] returns and has set
    exactly one timer, of delay [duration]; if it throws, the exception
    reaches the caller and no timer is set.  Whenever that timer fires it
    alone leaves the pending list (the timers before and after it stay,
    in order), and a [noteOff(note, 0)] goes to the port bound at that
    moment if there is one, and nothing is sent if there is none. *)
Theorem playNote_then_release
        (port_send : MIDIOutput -> list num -> option exn)
        (w : World) (port : MIDIOutput) (note velocity duration : num) :
  midiOutput (this w) = Obj port ->
  let msg :=
    [js_add (lit 0x90) (channel (this w)); clamp7 note; clamp7 velocity] in
  let tm := {| callback := ReleaseLater note; delay := duration |} in
  let w1 := world_after (playNote port_send note velocity duration w) in
  sent w1 = sent w ++ [(port, msg)]
  /\ this w1 = this w
  /\ match port_send port msg with
     | None =>
         outcome (playNote port_send note velocity duration w) = Normal tt
         /\ timers w1 = timers w ++ [tm]
     | Some e =>
         outcome (playNote port_send note velocity duration w) = Throw e
         /\ timers w1 = timers w
     end
  /\ forall (w2 : World) (k : nat),
       nth_error (timers w2) k = Some tm ->
       let w3 := world_after (fire port_send k w2) in
       timers w3 = firstn k (timers w2) ++ skipn (S k) (timers w2)
       /\ S (List.length (timers w3)) = List.length (timers w2)
       /\ this w3 = this w2
       /\ sent w3
          = sent w2
            ++ match midiOutput (this w2) with
               | Obj port' =>
                   [(port', [js_add (lit 0x80) (channel (this w2));
                             clamp7 note; lit 0])]
               | _ => []
               end.
Proof.
  intros Hp msg tm w1.
  pose proof (@playNote_bound port_send w port Hp note velocity duration)
    as Hplay.
  cbv zeta in Hplay. fold msg in Hplay.
  subst w1. rewrite Hplay.
  split; [destruct (port_send port msg); reflexivity | ].
  split; [destruct (port_send port msg); reflexivity | ].
  split; [destruct (port_send port msg); split; reflexivity | ].
  intros w2 k Hk. cbv zeta.
  rewrite (@fire_release port_send w2 k note duration Hk).
  pose proof (remove_nth_firstn_skipn k (timers w2)) as Hrm.
  pose proof (@remove_nth_length _ k (timers w2) tm Hk) as Hlen.
  destruct (midiOutput (this w2)).
  - cbn. rewrite app_nil_r. repeat split; assumption.
  - cbn. rewrite app_nil_r. repeat split; assumption.
  - rewrite send_eq. cbn. repeat split; assumption.
Qed.

(** The timer of a [playNote] fired with the port still bound, and fired
    after the application cleared [synth.midiOutput]. *)
Lemma playNote_then_release_witness :
  let w := start (constructor (Obj sh4d_port) (Some (lit 1))) in
  let w1 := world_after (playNote always_ok (lit 60) (lit 100) (lit 50) w) in
  let w2 := world_after (set_midiOutput Null w1) in
  timers w1 = [{| callback := ReleaseLater (lit 60); delay := lit 50 |}]
  /\ sent (world_after (fire always_ok 0 w1))
     = [(sh4d_port, [lit 0x90; lit 60; lit 100]);
        (sh4d_port, [lit 0x80; lit 60; lit 0])]
  /\ timers (world_after (fire always_ok 0 w1)) = []
  /\ sent (world_after (fire always_ok 0 w2))
     = [(sh4d_port, [lit 0x90; lit 60; lit 100])].
Proof.
  intros w w1 w2.
  pose proof (@playNote_then_release always_ok w sh4d_port
                (lit 60) (lit 100) (lit 50) eq_refl) as H.
  cbv zeta in H. destruct H as (_ & _ & Hset & Hfire).
  split; [exact (proj2 Hset) | ].
  destruct (Hfire w1 0%nat eq_refl) as (Ht1 & _ & _ & Hs1).
  destruct (Hfire w2 0%nat eq_refl) as (_ & _ & _ & Hs2).
  split; [exact Hs1 | split; [exact Ht1 | exact Hs2]].
Defined.

(** C10: the release that [playNote] defers carries the note byte of its
    note-on -- the same clamp of the same argument, a data byte unless the
    note is NaN -- and the velocity byte 0. *)
Theorem playNote_pair_matches
        (port_send : MIDIOutput -> list num -> option exn)
        (w w2 : World) (port port2 : MIDIOutput)
        (note velocity duration : num) (k : nat) :
  midiOutput (this w) = Obj port ->
  midiOutput (this w2) = Obj port2 ->
  nth_error (timers w2) k
  = nth_error (timers (world_after
                         (playNote port_send note velocity duration w)))
      (List.length (timers w)) ->
  port_send port
    [js_add (lit 0x90) (channel (this w)); clamp7 note; clamp7 velocity]
  = None ->
  exists note_byte velocity_byte : num,
    sent (world_after (playNote port_send note velocity duration w))
    = sent w ++ [(port, [js_add (lit 0x90) (channel (this w));
                         note_byte; velocity_byte])]
    /\ sent (world_after (fire port_send k w2))
       = sent w2 ++ [(port2, [js_add (lit 0x80) (channel (this w2));
                              note_byte; lit 0])]
    /\ note_byte = clamp7 note
    /\ match floor_clamp 0 127 note with
       | Some z => note_byte = lit z /\ is_data_byte note_byte = true
       | None => note = NaN
       end.
Proof.
  intros Hp Hp2 Hk Hok.
  pose proof (@playNote_bound port_send w port Hp note velocity duration)
    as Hplay.
  cbv zeta in Hplay. rewrite Hok in Hplay. rewrite Hplay in *.
  cbn [world_after fst sent timers] in *.
  rewrite nth_error_app2, Nat.sub_diag in Hk by apply Nat.le_refl.
  cbn [nth_error] in Hk.
  exists (clamp7 note), (clamp7 velocity). repeat split.
  - rewrite (@fire_release port_send w2 k note duration Hk), Hp2.
    now rewrite sent_after_send.
  - destruct note as [| | |q]; cbn [floor_clamp]; try reflexivity.
    + split; reflexivity.
    + split; reflexivity.
    + assert (Hq : Fin q <> NaN) by discriminate.
      destruct (clamp7_byte Hq) as (a & Ha & Ea & _ & Ba).
      cbn [floor_clamp] in Ha. injection Ha as ->.
      rewrite Ea. now split.
Qed.

Lemma playNote_pair_matches_witness :
  let w := start (constructor (Obj tr8s_port) (Some (lit 10))) in
  let w1 := world_after
              (playNote always_ok (Fin (257 # 2)) (lit 90) (lit 50) w) in
  exists note_byte velocity_byte : num,
    sent w1 = [(tr8s_port, [lit 0x99; note_byte; velocity_byte])]
    /\ sent (world_after (fire always_ok 0 w1))
       = sent w1 ++ [(tr8s_port, [lit 0x89; note_byte; lit 0])]
    /\ note_byte = lit 127.
Proof.
  intros w w1.
  destruct (@playNote_pair_matches always_ok w w1 tr8s_port tr8s_port
              (Fin (257 # 2)) (lit 90) (lit 50) 0%nat
              eq_refl eq_refl eq_refl eq_refl)
    as (nb & vb & H1 & H2 & H3 & H4).
  exists nb, vb. split; [exact H1 | split; [exact H2 | exact H3]].
Defined.

(* ================================================================== *)
(** ** MidiManager *)
(* ================================================================== *)

(** [initialize], case by case. *)
Lemma initialize_eq (navigator : Navigator) (w : Mgr.World) :
  Mgr.initialize navigator w
  = match navigator with
    | Resolves access =>
        ({| Mgr.this :=
              {| Mgr.midiAccess :=
                   Obj {| outputs := outputs access; onstatechange := true |};
                 Mgr.midiOutput := Mgr.midiOutput (Mgr.this w);
                 Mgr.devices := outputs access;
                 Mgr.onStateChange := Mgr.onStateChange (Mgr.this w) |};
            Mgr.console := Mgr.console w;
            Mgr.notified := Mgr.notified w |},
         Normal true)
    | _ =>
        ({| Mgr.this := Mgr.this w;
            Mgr.console := Mgr.console w ++ ["MIDI access denied:"%string];
            Mgr.notified := Mgr.notified w |},
         Normal false)
    end.
Proof. destruct navigator; reflexivity. Qed.

(** The JavaScript range test of [connect] is the range test of the
    spec. *)
Lemma range_test (i : num) (l : list MIDIOutput) :
  js_ge i (lit 0) && js_lt i (array_length l)
  = index_in_range i (List.length l).
Proof. destruct i; reflexivity. Qed.

(** [connect], case by case. *)
Lemma connect_eq (i : num) (w : Mgr.World) :
  Mgr.connect i w
  = if truthy (Mgr.midiAccess (Mgr.this w))
       && index_in_range i (List.length (Mgr.devices (Mgr.this w)))
    then
      ({| Mgr.this :=
            {| Mgr.midiAccess := Mgr.midiAccess (Mgr.this w);
               Mgr.midiOutput := array_get (Mgr.devices (Mgr.this w)) i;
               Mgr.devices := Mgr.devices (Mgr.this w);
               Mgr.onStateChange := Mgr.onStateChange (Mgr.this w) |};
          Mgr.console := Mgr.console w;
          Mgr.notified := Mgr.notified w |},
       Normal true)
    else (w, Normal false).
Proof.
  unfold Mgr.connect, bind, get. rewrite range_test.
  destruct (truthy (Mgr.midiAccess (Mgr.this w))); cbn [negb andb];
    [ | reflexivity].
  destruct (index_in_range i _); reflexivity.
Qed.

(** An integer index inside the list reads the element at that place. *)
Lemma array_get_lit (A : Type) (l : list A) (z : Z) (a : A) :
  (0 <= z)%Z -> nth_error l (Z.to_nat z) = Some a ->
  array_get l (lit z) = Obj a
  /\ index_in_range (lit z) (List.length l) = true.
Proof.
  intros Hz Hn. unfold array_get, index_in_range, lit.
  rewrite Qfloor_Z, Qeq_bool_refl.
  replace (0 <=? z)%Z with true by (symmetry; apply Z.leb_le; lia).
  cbn [andb]. rewrite Hn. split; [reflexivity | ].
  change (Qle_bool 0 (inject_Z z)) with (Qle_bool (inject_Z 0) (inject_Z z)).
  rewrite !Qle_bool_lit.
  assert (Hlt : (Z.to_nat z < List.length l)%nat)
    by (apply nth_error_Some; congruence).
  apply andb_true_intro; split.
  - apply Z.leb_le; lia.
  - apply negb_true_iff, Z.leb_gt. lia.
Qed.

(** One step keeps an access handle, and gains one exactly when it is an
    [initialize] that returns [true]. *)
Lemma access_step (op : Mgr.Op) (w : Mgr.World) :
  truthy (Mgr.midiAccess (Mgr.this (Mgr.run_op op w)))
  = truthy (Mgr.midiAccess (Mgr.this w)) || Mgr.initialize_succeeded op w.
Proof.
  destruct op; cbn [Mgr.run_op Mgr.initialize_succeeded].
  - rewrite initialize_eq. destruct navigator; cbn;
      now rewrite ?orb_false_r, ?orb_true_r.
  - unfold Mgr.updateDeviceList, bind, get. rewrite orb_false_r.
    destruct (Mgr.midiAccess (Mgr.this w)) eqn:E; cbn; now rewrite E.
  - now rewrite orb_false_r.
  - rewrite connect_eq, orb_false_r.
    destruct (truthy (Mgr.midiAccess (Mgr.this w)) && _) eqn:E; [ | reflexivity].
    cbn. now apply andb_prop in E as [-> _].
  - now rewrite orb_false_r.
  - now rewrite orb_false_r.
  - now rewrite orb_false_r.
  - now rewrite orb_false_r.
  - unfold Mgr.statechange, bind, get. rewrite orb_false_r.
    destruct (Mgr.midiAccess (Mgr.this w)) as [| |access] eqn:E; cbn;
      rewrite ?E; try reflexivity.
    destruct (onstatechange access); cbn; [ | reflexivity].
    destruct (Mgr.onStateChange (Mgr.this w)); reflexivity.
Qed.

(** A manager holds an access handle exactly when some [initialize] of
    its history returned [true]. *)
Lemma access_iff_initialized (tr : list Mgr.Op) (w : Mgr.World) :
  truthy (Mgr.midiAccess (Mgr.this (Mgr.run_ops tr w)))
  = truthy (Mgr.midiAccess (Mgr.this w)) || Mgr.ever_initialized tr w.
Proof.
  revert w. induction tr as [|op tr IH]; intros w.
  - cbn. now rewrite orb_false_r.
  - cbn [Mgr.run_ops fold_left Mgr.ever_initialized].
    change (fold_left (fun w0 op0 => Mgr.run_op op0 w0) tr (Mgr.run_op op w))
      with (Mgr.run_ops tr (Mgr.run_op op w)).
    now rewrite IH, access_step, orb_assoc.
Qed.

(** C9: [initialize] always returns a boolean and never throws.  When the
    platform has no Web MIDI or refuses access it returns [false] and
    leaves the manager as it was -- on a new manager: no access handle,
    no devices, no connected port.  When access is granted it returns
    [true], keeps the handle and lists the handle's outputs as the
    available devices. *)
Theorem initialize_contract (navigator : Navigator) (w : Mgr.World) :
  returns (outcome (Mgr.initialize navigator w)) = true
  /\ match navigator with
     | Resolves access =>
         outcome (Mgr.initialize navigator w) = Normal true
         /\ Mgr.devices (Mgr.this (world_after (Mgr.initialize navigator w)))
            = outputs access
         /\ Mgr.midiAccess (Mgr.this (world_after (Mgr.initialize navigator w)))
            = Obj {| outputs := outputs access; onstatechange := true |}
         /\ Mgr.midiOutput (Mgr.this (world_after (Mgr.initialize navigator w)))
            = Mgr.midiOutput (Mgr.this w)
     | _ =>
         outcome (Mgr.initialize navigator w) = Normal false
         /\ Mgr.this (world_after (Mgr.initialize navigator w)) = Mgr.this w
         /\ Mgr.this (world_after (Mgr.initialize navigator Mgr.fresh))
            = {| Mgr.midiAccess := Null; Mgr.midiOutput := Null;
                 Mgr.devices := []; Mgr.onStateChange := Null |}
     end.
Proof.
  rewrite !initialize_eq. destruct navigator; cbn; repeat split.
Qed.

(** C5: on a manager whose history holds no successful [initialize], and
    for an index outside [0, len(devices)), [connect] returns [false] and
    changes nothing; after a successful [initialize] and for an index
    inside the range it returns [true] and binds [midiOutput] to
    [devices[index]], the port at that place when the index is an
    integer. *)
Theorem connect_contract (tr : list Mgr.Op) (i : num) :
  let w := Mgr.run_ops tr Mgr.fresh in
  (Mgr.ever_initialized tr Mgr.fresh = false ->
   Mgr.connect i w = (w, Normal false))
  /\ (index_in_range i (List.length (Mgr.devices (Mgr.this w))) = false ->
      Mgr.connect i w = (w, Normal false))
  /\ (Mgr.ever_initialized tr Mgr.fresh = true ->
      index_in_range i (List.length (Mgr.devices (Mgr.this w))) = true ->
      Mgr.connect i w
      = ({| Mgr.this :=
              {| Mgr.midiAccess := Mgr.midiAccess (Mgr.this w);
                 Mgr.midiOutput := array_get (Mgr.devices (Mgr.this w)) i;
                 Mgr.devices := Mgr.devices (Mgr.this w);
                 Mgr.onStateChange := Mgr.onStateChange (Mgr.this w) |};
            Mgr.console := Mgr.console w;
            Mgr.notified := Mgr.notified w |},
         Normal true)
      /\ forall (z : Z) (port : MIDIOutput),
           i = lit z -> (0 <= z)%Z ->
           nth_error (Mgr.devices (Mgr.this w)) (Z.to_nat z) = Some port ->
           array_get (Mgr.devices (Mgr.this w)) i = Obj port).
Proof.
  intros w.
  pose proof (access_iff_initialized tr Mgr.fresh) as Hacc.
  fold w in Hacc. cbn [Mgr.fresh Mgr.this Mgr.constructor Mgr.midiAccess
                       truthy orb] in Hacc.
  rewrite connect_eq, Hacc. split; [ | split].
  - now intros ->.
  - intros ->. now rewrite andb_false_r.
  - intros -> ->. split; [reflexivity | ].
    intros z port -> Hz Hn. now apply array_get_lit.
Qed.

Lemma connect_contract_witness :
  let access := {| outputs := [sh4d_port; tr8s_port]; onstatechange := false |} in
  Mgr.connect (lit 0) Mgr.fresh = (Mgr.fresh, Normal false)
  /\ Mgr.connect (lit 2) (Mgr.run_ops [Mgr.Initialize (Resolves access)] Mgr.fresh)
     = (Mgr.run_ops [Mgr.Initialize (Resolves access)] Mgr.fresh, Normal false)
  /\ outcome
       (Mgr.connect (lit 1)
          (Mgr.run_ops [Mgr.Initialize (Resolves access)] Mgr.fresh))
     = Normal true
  /\ array_get [sh4d_port; tr8s_port] (lit 1) = Obj tr8s_port.
Proof.
  intros access.
  pose proof (connect_contract [] (lit 0)) as H0.
  pose proof (connect_contract [Mgr.Initialize (Resolves access)] (lit 2)) as H2.
  pose proof (connect_contract [Mgr.Initialize (Resolves access)] (lit 1)) as H1.
  cbv zeta in H0, H2, H1.
  destruct H0 as (H0 & _). destruct H2 as (_ & H2 & _).
  destruct H1 as (_ & _ & H1).
  split; [exact (H0 eq_refl) | split; [exact (H2 eq_refl) | ]].
  destruct (H1 eq_refl eq_refl) as (Hc & Hget).
  split.
  - rewrite Hc. reflexivity.
  - exact (Hget 1%Z tr8s_port eq_refl ltac:(discriminate) eq_refl).
Defined.

(* ================================================================== *)
(** ** MidiManager: what its methods keep *)
(* ================================================================== *)

Lemma in_sync_step (op : Mgr.Op) (w : Mgr.World) :
  in_sync w -> in_sync (Mgr.run_op op w).
Proof.
  unfold in_sync. intros H. destruct op; cbn [Mgr.run_op].
  - rewrite initialize_eq. destruct navigator; cbn; try exact H.
    split; reflexivity.
  - unfold Mgr.updateDeviceList, bind, get.
    destruct (Mgr.midiAccess (Mgr.this w)) as [| |access] eqn:E; cbn;
      rewrite ?E; tauto.
  - exact H.
  - rewrite connect_eq.
    destruct (Mgr.midiAccess (Mgr.this w)) as [| |access] eqn:E;
      cbn [truthy andb world_after fst]; try (rewrite ?E; exact H).
    destruct (index_in_range deviceIndex _); cbn; rewrite ?E; exact H.
  - cbn. destruct (Mgr.midiAccess (Mgr.this w)); tauto.
  - exact H.
  - exact H.
  - exact H.
  - unfold Mgr.statechange, bind, get.
    destruct (Mgr.midiAccess (Mgr.this w)) as [| |access] eqn:E; cbn;
      rewrite ?E; try exact H.
    destruct H as [-> _]. cbn.
    destruct (Mgr.onStateChange (Mgr.this w)); cbn; split; reflexivity.
Qed.

Lemma run_ops_cons (op : Mgr.Op) (tr : list Mgr.Op) (w : Mgr.World) :
  Mgr.run_ops (op :: tr) w = Mgr.run_ops tr (Mgr.run_op op w).
Proof. reflexivity. Qed.

Lemma in_sync_run (tr : list Mgr.Op) (w : Mgr.World) :
  in_sync w -> in_sync (Mgr.run_ops tr w).
Proof.
  revert w. induction tr as [|op tr IH]; intros w H; [exact H | ].
  rewrite run_ops_cons. apply IH. now apply in_sync_step.
Qed.

Lemma reachable_in_sync (tr : list Mgr.Op) :
  in_sync (Mgr.run_ops tr Mgr.fresh)
  /\ truthy (Mgr.midiAccess (Mgr.this (Mgr.run_ops tr Mgr.fresh)))
     = Mgr.ever_initialized tr Mgr.fresh.
Proof.
  split.
  - apply in_sync_run. cbn. split; reflexivity.
  - now rewrite access_iff_initialized.
Qed.

(** X1: whatever calls and platform events a new manager has gone
    through, its device list mirrors its access handle: with a handle
    (there is one exactly when some [initialize] returned [true]) the
    change handler is installed and [devices] is the handle's current
    output list; without one, [devices] is empty and nothing is
    connected. *)
Theorem manager_in_sync (tr : list Mgr.Op) :
  in_sync (Mgr.run_ops tr Mgr.fresh)
  /\ truthy (Mgr.midiAccess (Mgr.this (Mgr.run_ops tr Mgr.fresh)))
     = Mgr.ever_initialized tr Mgr.fresh.
Proof. apply reachable_in_sync. Qed.

(** X2: on a manager that was initialized, a device added or removed makes
    [devices] the platform's new list, invokes the [onStateChange]
    callback once if one is set and not at all otherwise, and leaves the
    connected port as it is; on a manager that never was, the event does
    nothing. *)
Theorem statechange_refreshes (tr : list Mgr.Op) (outs : list MIDIOutput) :
  let w := Mgr.run_ops tr Mgr.fresh in
  let w' := world_after (Mgr.statechange outs w) in
  outcome (Mgr.statechange outs w) = Normal tt
  /\ if Mgr.ever_initialized tr Mgr.fresh
     then Mgr.devices (Mgr.this w') = outs
          /\ world_after (Mgr.getDevices w') = w'
          /\ outcome (Mgr.getDevices w') = Normal outs
          /\ Mgr.midiOutput (Mgr.this w') = Mgr.midiOutput (Mgr.this w)
          /\ Mgr.notified w'
             = Mgr.notified w
               ++ match Mgr.onStateChange (Mgr.this w) with
                  | Obj l => [l]
                  | _ => []
                  end
     else w' = w.
Proof.
  intros w w'. destruct (reachable_in_sync tr) as [Hs Ha].
  fold w in Hs, Ha. subst w'. rewrite <- Ha. clear Ha.
  unfold in_sync in Hs. unfold Mgr.statechange, bind, get.
  destruct (Mgr.midiAccess (Mgr.this w)) as [| |access] eqn:E; cbn;
    try (split; reflexivity).
  destruct Hs as [-> _]. cbn.
  destruct (Mgr.onStateChange (Mgr.this w)); cbn;
    rewrite ?app_nil_r; repeat split; reflexivity.
Qed.

(** An integer index that passes the range test names an element. *)
Lemma index_in_range_lit (A : Type) (l : list A) (z : Z) :
  index_in_range (lit z) (List.length l) = true ->
  (0 <= z)%Z /\ exists a, nth_error l (Z.to_nat z) = Some a.
Proof.
  unfold index_in_range, lit. intros H.
  change (Qle_bool 0 (inject_Z z)) with (Qle_bool (inject_Z 0) (inject_Z z)) in H.
  rewrite !Qle_bool_lit in H. apply andb_prop in H as [H0 H1].
  apply Z.leb_le in H0. apply negb_true_iff, Z.leb_gt in H1.
  split; [exact H0 | ].
  destruct (nth_error l (Z.to_nat z)) as [a|] eqn:E; [now exists a | ].
  apply nth_error_None in E. lia.
Qed.

(** What [connect] returns. *)
Lemma connect_outcome (i : num) (w : Mgr.World) :
  outcome (Mgr.connect i w)
  = Normal (truthy (Mgr.midiAccess (Mgr.this w))
            && index_in_range i (List.length (Mgr.devices (Mgr.this w)))).
Proof.
  rewrite connect_eq.
  destruct (truthy _ && index_in_range i _); reflexivity.
Qed.

(** X3: when [connect] returns [true] for an integer index, the connected
    port is the element of the device list at that index; afterwards
    [isConnected()] is [true] and [getConnectedDeviceName()] is that
    port's name. *)
Theorem connect_binds_listed_port (w : Mgr.World) (z : Z) :
  outcome (Mgr.connect (lit z) w) = Normal true ->
  let w' := world_after (Mgr.connect (lit z) w) in
  exists port : MIDIOutput,
    nth_error (Mgr.devices (Mgr.this w)) (Z.to_nat z) = Some port
    /\ In port (Mgr.devices (Mgr.this w))
    /\ Mgr.midiOutput (Mgr.this w') = Obj port
    /\ Mgr.devices (Mgr.this w') = Mgr.devices (Mgr.this w)
    /\ outcome (Mgr.isConnected w') = Normal true
    /\ outcome (Mgr.getConnectedDeviceName w') = Normal (Obj (name port)).
Proof.
  intros H w'. subst w'. rewrite connect_outcome in H. rewrite connect_eq.
  destruct (truthy (Mgr.midiAccess (Mgr.this w))
            && index_in_range (lit z) _) eqn:Hc; [clear H | discriminate H].
  apply andb_prop in Hc as [_ H].
  destruct (index_in_range_lit _ _ H) as (Hz & port & Hn).
  destruct (array_get_lit _ Hz Hn) as [Hget _].
  exists port. rewrite Hget.
  repeat split; try reflexivity; try assumption.
  now apply nth_error_In in Hn.
Qed.

Lemma connect_binds_listed_port_witness :
  let access := {| outputs := [sh4d_port; tr8s_port]; onstatechange := false |} in
  let w := world_after (Mgr.initialize (Resolves access) Mgr.fresh) in
  exists port : MIDIOutput,
    nth_error [sh4d_port; tr8s_port] 1 = Some port
    /\ outcome (Mgr.getConnectedDeviceName (world_after (Mgr.connect (lit 1) w)))
       = Normal (Obj (name port)).
Proof.
  intros access w.
  destruct (@connect_binds_listed_port w 1%Z eq_refl)
    as (port & Hn & _ & _ & _ & _ & Hname).
  exists port. split; [exact Hn | exact Hname].
Defined.

(** X4: an index with a fractional part that passes the range test (0.5
    with one device) makes [connect] return [true] and bind
    [devices[index]], which is [undefined]: [isConnected()] then says
    [true] while [getConnectedDeviceName()] says [null]. *)
Theorem connect_fractional_index (w : Mgr.World) (q : Q) :
  truthy (Mgr.midiAccess (Mgr.this w)) = true ->
  index_in_range (Fin q) (List.length (Mgr.devices (Mgr.this w))) = true ->
  is_fractional q = true ->
  let w' := world_after (Mgr.connect (Fin q) w) in
  outcome (Mgr.connect (Fin q) w) = Normal true
  /\ Mgr.midiOutput (Mgr.this w') = Undefined
  /\ outcome (Mgr.isConnected w') = Normal true
  /\ outcome (Mgr.getConnectedDeviceName w') = Normal Null.
Proof.
  intros Ha Hr Hf w'. subst w'. rewrite connect_eq, Ha, Hr. cbn.
  unfold is_fractional in Hf. apply negb_true_iff in Hf. rewrite Hf. cbn.
  repeat split; reflexivity.
Qed.

Lemma connect_fractional_index_witness :
  let access := {| outputs := [sh4d_port]; onstatechange := false |} in
  let w := world_after (Mgr.initialize (Resolves access) Mgr.fresh) in
  outcome (Mgr.connect (Fin (1 # 2)) w) = Normal true
  /\ outcome (Mgr.isConnected (world_after (Mgr.connect (Fin (1 # 2)) w)))
     = Normal true
  /\ outcome (Mgr.getConnectedDeviceName
                (world_after (Mgr.connect (Fin (1 # 2)) w)))
     = Normal Null.
Proof.
  intros access w.
  destruct (@connect_fractional_index w (1 # 2) eq_refl eq_refl eq_refl)
    as (H1 & _ & H2 & H3).
  split; [exact H1 | split; [exact H2 | exact H3]].
Defined.

(** X5: [connect] does not look at the current connection: after another
    [connect] or a [disconnect] it returns what it would have returned,
    and when that is [true] it leaves the manager in the same state -- the
    last successful [connect] wins, with no [disconnect] needed in
    between. *)
Theorem connect_replaces (w : Mgr.World) (i j : num) :
  outcome (Mgr.connect j w) = Normal true ->
  Mgr.connect j (world_after (Mgr.connect i w)) = Mgr.connect j w
  /\ Mgr.connect j (world_after (Mgr.disconnect w)) = Mgr.connect j w.
Proof.
  intros H0. rewrite connect_outcome in H0.
  assert (H : truthy (Mgr.midiAccess (Mgr.this w))
              && index_in_range j (List.length (Mgr.devices (Mgr.this w)))
              = true).
  { destruct (truthy _ && index_in_range j _);
      [reflexivity | discriminate H0]. }
  clear H0.
  assert (Hi : Mgr.midiAccess (Mgr.this (world_after (Mgr.connect i w)))
               = Mgr.midiAccess (Mgr.this w)
               /\ Mgr.devices (Mgr.this (world_after (Mgr.connect i w)))
                  = Mgr.devices (Mgr.this w)
               /\ Mgr.onStateChange (Mgr.this (world_after (Mgr.connect i w)))
                  = Mgr.onStateChange (Mgr.this w)
               /\ Mgr.console (world_after (Mgr.connect i w)) = Mgr.console w
               /\ Mgr.notified (world_after (Mgr.connect i w)) = Mgr.notified w).
  { rewrite connect_eq. destruct (truthy _ && index_in_range i _); cbn;
      repeat split; reflexivity. }
  rewrite (connect_eq j (world_after (Mgr.connect i w))),
    (connect_eq j (world_after (Mgr.disconnect w))), (connect_eq j w).
  destruct Hi as (-> & -> & -> & -> & ->). cbn. rewrite H.
  split; reflexivity.
Qed.

Lemma connect_replaces_witness :
  let access := {| outputs := [sh4d_port; tr8s_port]; onstatechange := false |} in
  let w := world_after (Mgr.initialize (Resolves access) Mgr.fresh) in
  Mgr.midiOutput
    (Mgr.this (world_after
                 (Mgr.connect (lit 1) (world_after (Mgr.connect (lit 0) w)))))
  = Obj tr8s_port.
Proof.
  intros access w.
  rewrite (proj1 (@connect_replaces w (lit 0) (lit 1) eq_refl)).
  reflexivity.
Defined.

(** X6: on a manager with nothing connected, [connect] followed by
    [disconnect] gives back the manager as it was, whether the [connect]
    succeeded or not; after [disconnect], [isConnected()] is [false] and
    [getConnectedDeviceName()] is [null] in every case. *)
Theorem connect_then_disconnect (w : Mgr.World) (i : num) :
  Mgr.midiOutput (Mgr.this w) = Null ->
  let w' := world_after (Mgr.disconnect (world_after (Mgr.connect i w))) in
  w' = w
  /\ outcome (Mgr.isConnected w') = Normal false
  /\ outcome (Mgr.getConnectedDeviceName w') = Normal Null.
Proof.
  intros H w'. subst w'. rewrite connect_eq.
  destruct w as [[a o d c] cs ns]. cbn in *. subst o.
  destruct (truthy a && index_in_range i _); cbn; repeat split; reflexivity.
Qed.

Lemma connect_then_disconnect_witness :
  let access := {| outputs := [sh4d_port]; onstatechange := false |} in
  let w := world_after (Mgr.initialize (Resolves access) Mgr.fresh) in
  world_after (Mgr.disconnect (world_after (Mgr.connect (lit 0) w))) = w.
Proof.
  intros access w.
  exact (proj1 (@connect_then_disconnect w (lit 0) eq_refl)).
Defined.

(** One step that is neither [connect] nor [disconnect] keeps the
    connected port. *)
Lemma midiOutput_step (op : Mgr.Op) (w : Mgr.World) :
  assigns_midiOutput op = false ->
  Mgr.midiOutput (Mgr.this (Mgr.run_op op w)) = Mgr.midiOutput (Mgr.this w).
Proof.
  destruct op; cbn [assigns_midiOutput Mgr.run_op]; try discriminate;
    intros _; try reflexivity.
  - rewrite initialize_eq. destruct navigator; reflexivity.
  - unfold Mgr.updateDeviceList, bind, get.
    destruct (Mgr.midiAccess (Mgr.this w)); reflexivity.
  - unfold Mgr.statechange, bind, get.
    destruct (Mgr.midiAccess (Mgr.this w)) as [| |access]; try reflexivity.
    cbn. destruct (onstatechange access); cbn; [ | reflexivity].
    destruct (Mgr.onStateChange (Mgr.this w)); reflexivity.
Qed.

(** X7: only [connect] and [disconnect] change the connected port.
    Through any sequence of other calls and platform events -- devices
    unplugged, [initialize] run again, the list refreshed -- the manager
    keeps the port it was connected to, even one that is no longer
    listed. *)
Theorem connection_is_kept (tr : list Mgr.Op) (w : Mgr.World) :
  forallb (fun op => negb (assigns_midiOutput op)) tr = true ->
  Mgr.midiOutput (Mgr.this (Mgr.run_ops tr w)) = Mgr.midiOutput (Mgr.this w).
Proof.
  revert w. induction tr as [|op tr IH]; intros w H; [reflexivity | ].
  cbn [forallb] in H. apply andb_prop in H as [Hop Htr].
  rewrite run_ops_cons, (IH _ Htr). apply midiOutput_step.
  now apply negb_true_iff.
Qed.

Lemma connection_is_kept_witness :
  let access := {| outputs := [sh4d_port]; onstatechange := false |} in
  let w := Mgr.run_ops [Mgr.Initialize (Resolves access); Mgr.Connect (lit 0)]
             Mgr.fresh in
  let w' := Mgr.run_ops [Mgr.StateChange []; Mgr.Initialize (Rejects "gone")] w in
  Mgr.devices (Mgr.this w') = []
  /\ Mgr.midiOutput (Mgr.this w') = Obj sh4d_port.
Proof.
  intros access w w'. split; [reflexivity | ].
  exact (@connection_is_kept
           [Mgr.StateChange []; Mgr.Initialize (Rejects "gone")] w eq_refl).
Defined.

(* ================================================================== *)
(** ** BaseSynth: what every send operation does and does not do *)
(* ================================================================== *)

(** X8: on a bound port every send operation calls [port.send] exactly
    once, on that port; it leaves the synth's fields alone; it ends the
    way that [send] ended, so what the port throws reaches the caller;
    and it sets no timer, except [playNote], which sets one and only
    after its note-on was accepted. *)
Theorem send_op_makes_one_call
        (port_send : MIDIOutput -> list num -> option exn)
        (w : World) (port : MIDIOutput) (op : SendOp) :
  midiOutput (this w) = Obj port ->
  let w' := world_after (call port_send op w) in
  exists msg : list num,
    this w' = this w
    /\ sent w' = sent w ++ [(port, msg)]
    /\ outcome (call port_send op w) = send_completion (port_send port msg)
    /\ timers w'
       = match op, port_send port msg with
         | PlayNote note _ duration, None =>
             timers w ++ [{| callback := ReleaseLater note; delay := duration |}]
         | _, _ => timers w
         end.
Proof.
  intros Hp w'. subst w'. destruct op; cbn [call].
  - rewrite (@noteOn_bound port_send w port Hp), send_eq.
    eexists; repeat split.
  - rewrite (@noteOff_bound port_send w port Hp), send_eq.
    eexists; repeat split.
  - pose proof (@playNote_bound port_send w port Hp note velocity duration)
      as Hplay.
    cbv zeta in Hplay. rewrite Hplay.
    exists [js_add (lit 0x90) (channel (this w)); clamp7 note; clamp7 velocity].
    destruct (port_send port _); repeat split.
  - rewrite (@sendCC_bound port_send w port Hp), send_eq.
    eexists; repeat split.
  - rewrite (@sendProgramChange_bound port_send w port Hp), send_eq.
    eexists; repeat split.
  - rewrite (proj1 (@sendPitchBend_bound port_send w port Hp value)), send_eq.
    eexists; repeat split.
  - rewrite (@sendRawMIDI_bound port_send w port Hp), send_eq.
    eexists; repeat split.
Qed.

Lemma send_op_makes_one_call_witness :
  let w := start (constructor (Obj sh4d_port) (Some (lit 1))) in
  exists msg : list num,
    sent (world_after
            (call always_throws (PlayNote (lit 60) (lit 100) (lit 50)) w))
    = [(sh4d_port, msg)]
    /\ outcome (call always_throws (PlayNote (lit 60) (lit 100) (lit 50)) w)
       = Throw (DOMException "InvalidStateError")
    /\ timers (world_after
                 (call always_throws (PlayNote (lit 60) (lit 100) (lit 50)) w))
       = [].
Proof.
  intros w.
  destruct (@send_op_makes_one_call always_throws w sh4d_port
              (PlayNote (lit 60) (lit 100) (lit 50)) eq_refl)
    as (msg & _ & Hs & Ho & Ht).
  exists msg. split; [exact Hs | split; [exact Ho | exact Ht]].
Defined.

(** X9: arguments that already are MIDI data bytes -- integers of
    [0, 127] -- are sent as they are by [noteOn], [noteOff], [sendCC] and
    [sendProgramChange]. *)
Theorem valid_bytes_are_sent_unchanged
        (port_send : MIDIOutput -> list num -> option exn)
        (w : World) (port : MIDIOutput) (a b : Z) :
  midiOutput (this w) = Obj port ->
  (0 <= a <= 127)%Z -> (0 <= b <= 127)%Z ->
  sent (world_after (noteOn port_send (lit a) (lit b) w))
  = sent w ++ [(port, [js_add (lit 0x90) (channel (this w)); lit a; lit b])]
  /\ sent (world_after (noteOff port_send (lit a) (Some (lit b)) w))
     = sent w ++ [(port, [js_add (lit 0x80) (channel (this w)); lit a; lit b])]
  /\ sent (world_after (sendCC port_send (lit a) (lit b) w))
     = sent w ++ [(port, [js_add (lit 0xB0) (channel (this w)); lit a; lit b])]
  /\ sent (world_after (sendProgramChange port_send (lit a) w))
     = sent w ++ [(port, [js_add (lit 0xC0) (channel (this w)); lit a])].
Proof.
  intros Hp Ha Hb.
  assert (E : forall z, (0 <= z <= 127)%Z -> clamp7 (lit z) = lit z).
  { intros z Hz. rewrite floor_lit, min_lit, max_lit. f_equal. lia. }
  rewrite (@noteOn_bound port_send w port Hp),
    (@noteOff_bound port_send w port Hp),
    (@sendCC_bound port_send w port Hp),
    (@sendProgramChange_bound port_send w port Hp).
  rewrite !sent_after_send, (E a Ha), (E b Hb). repeat split.
Qed.

Lemma valid_bytes_are_sent_unchanged_witness :
  sent (world_after
          (sendCC always_ok (lit 74) (lit 127)
             (start (constructor (Obj sh4d_port) (Some (lit 2))))))
  = [(sh4d_port, [lit 0xB1; lit 74; lit 127])].
Proof.
  assert (Ha : (0 <= 74 <= 127)%Z) by (split; discriminate).
  assert (Hb : (0 <= 127 <= 127)%Z) by (split; discriminate).
  exact (proj1 (proj2 (proj2
           (@valid_bytes_are_sent_unchanged always_ok
              (start (constructor (Obj sh4d_port) (Some (lit 2))))
              sh4d_port 74 127 eq_refl Ha Hb)))).
Defined.

(** X10: the data byte grows with its argument: of two finite arguments,
    the smaller one is never sent as the larger byte (shown on
    [sendProgramChange]; the other operations clamp with the same
    expression). *)
Theorem data_byte_is_monotone
        (port_send : MIDIOutput -> list num -> option exn)
        (w : World) (port : MIDIOutput) (p q : Q) :
  midiOutput (this w) = Obj port ->
  p <= q ->
  exists a b : Z,
    sent (world_after (sendProgramChange port_send (Fin p) w))
    = sent w ++ [(port, [js_add (lit 0xC0) (channel (this w)); lit a])]
    /\ sent (world_after (sendProgramChange port_send (Fin q) w))
       = sent w ++ [(port, [js_add (lit 0xC0) (channel (this w)); lit b])]
    /\ (a <= b)%Z.
Proof.
  intros Hp Hle.
  exists (Z.max 0 (Z.min 127 (Qfloor p))), (Z.max 0 (Z.min 127 (Qfloor q))).
  rewrite !(@sendProgramChange_bound port_send w port Hp), !sent_after_send.
  assert (H127 : (0 <= 127)%Z) by lia.
  rewrite (@clamp_floor 0 127 (Fin p) _ H127 eq_refl),
    (@clamp_floor 0 127 (Fin q) _ H127 eq_refl).
  repeat split. pose proof (Qfloor_resp_le _ _ Hle). lia.
Qed.

Lemma data_byte_is_monotone_witness :
  exists a b : Z,
    sent (world_after
            (sendProgramChange always_ok (Fin (5 # 2))
               (start (constructor (Obj sh4d_port) None))))
    = [(sh4d_port, [lit 0xC0; lit a])]
    /\ sent (world_after
               (sendProgramChange always_ok (Fin (7 # 2))
                  (start (constructor (Obj sh4d_port) None))))
       = [(sh4d_port, [lit 0xC0; lit b])]
    /\ (a <= b)%Z.
Proof.
  assert (Hle : 5 # 2 <= 7 # 2) by discriminate.
  exact (@data_byte_is_monotone always_ok
           (start (constructor (Obj sh4d_port) None)) sh4d_port
           (5 # 2) (7 # 2) eq_refl Hle).
Defined.

(** X11: [sendPitchBend] for every number: the two data bytes are 7-bit
    and [msb * 128 + lsb] is the value floored (toward minus infinity),
    saturated to [-8192, 8191] and biased by 8192; the infinities
    saturate; NaN is sent as 0, the lowest bend, not as the centre
    8192. *)
Theorem pitch_bend_of_any_number
        (port_send : MIDIOutput -> list num -> option exn)
        (w : World) (port : MIDIOutput) (value : num) :
  midiOutput (this w) = Obj port ->
  exists lsb msb : Z,
    sent (world_after (sendPitchBend port_send value w))
    = sent w ++ [(port, [js_add (lit 0xE0) (channel (this w)); lit lsb; lit msb])]
    /\ (0 <= lsb <= 127)%Z /\ (0 <= msb <= 127)%Z
    /\ (msb * 128 + lsb)%Z
       = match value with
         | NaN => 0%Z
         | NegInf => 0%Z
         | PosInf => 16383%Z
         | Fin q => bend14 (Qfloor q)
         end.
Proof.
  intros Hp.
  destruct (@sendPitchBend_bound port_send w port Hp value) as [E R].
  destruct (split14 R) as (S1 & S2 & S3).
  eexists _, _. rewrite E, sent_after_send.
  split; [reflexivity | ]. split; [exact S2 | ]. split; [exact S3 | ].
  rewrite S1. destruct value; reflexivity.
Qed.

Lemma pitch_bend_of_any_number_witness :
  exists lsb msb : Z,
    sent (world_after
            (sendPitchBend always_ok (Fin (-1 # 2))
               (start (constructor (Obj sh4d_port) None))))
    = [(sh4d_port, [lit 0xE0; lit lsb; lit msb])]
    /\ (msb * 128 + lsb)%Z = 8191%Z.
Proof.
  destruct (@pitch_bend_of_any_number always_ok
              (start (constructor (Obj sh4d_port) None)) sh4d_port
              (Fin (-1 # 2)) eq_refl)
    as (lsb & msb & Hs & _ & _ & Hv).
  exists lsb, msb. split; [exact Hs | exact Hv].
Defined.

(** A status nibble plus a channel of [0, 15] splits back into both. *)
Lemma nibble_split (n k : Z) :
  In n [0x80; 0x90; 0xB0; 0xC0; 0xE0]%Z -> (0 <= k <= 15)%Z ->
  Z.land (n + k) 0xF0 = n /\ Z.land (n + k) 0x0F = k.
Proof.
  intros Hn Hk.
  assert (Hcases : In k [0; 1; 2; 3; 4; 5; 6; 7; 8; 9; 10; 11; 12; 13; 14; 15]%Z).
  { cbn. lia. }
  cbn in Hn, Hcases.
  repeat match goal with
         | H : _ \/ _ |- _ => destruct H
         | H : False |- _ => destruct H
         end; subst; split; reflexivity.
Qed.

Lemma status_of_in (op : SendOp) (nibble : Z) :
  status_of op = Some nibble -> In nibble [0x80; 0x90; 0xB0; 0xC0; 0xE0]%Z.
Proof.
  destruct op; cbn; intros H; inversion H; subst; cbn; tauto.
Qed.

(** X12: on a synth made with an integer channel argument [z], the first
    byte of every encoded message gives back both the operation and the
    channel: its high nibble is the operation's status nibble and its low
    nibble plus one is [z] clamped to [1, 16]. *)
Theorem status_byte_round_trip
        (port_send : MIDIOutput -> list num -> option exn)
        (w : World) (port : MIDIOutput) (z : Z) (op : SendOp) (nibble : Z) :
  this w = constructor (Obj port) (Some (lit z)) ->
  status_of op = Some nibble ->
  exists (s : Z) (data : list num),
    sent (world_after (call port_send op w))
    = sent w ++ [(port, lit s :: data)]
    /\ Z.land s 0xF0 = nibble
    /\ (Z.land s 0x0F + 1)%Z = Z.max 1 (Z.min 16 z).
Proof.
  intros Hthis Hs.
  assert (Hp : midiOutput (this w) = Obj port) by now rewrite Hthis.
  assert (Hch : channel (this w) = lit (Z.max 1 (Z.min 16 z) - 1)).
  { rewrite Hthis. unfold constructor; cbn [channel].
    now rewrite min_lit, max_lit, sub_lit. }
  pose proof (@status_of_in op nibble Hs) as Hin.
  assert (Hk : (0 <= Z.max 1 (Z.min 16 z) - 1 <= 15)%Z) by lia.
  destruct (@nibble_split nibble _ Hin Hk) as [Hhi Hlo].
  exists (nibble + (Z.max 1 (Z.min 16 z) - 1))%Z.
  rewrite Hhi, Hlo.
  assert (Hshape : exists data,
             sent (world_after (call port_send op w))
             = sent w ++ [(port, js_add (lit nibble) (channel (this w)) :: data)]).
  { destruct op; cbn in Hs; inversion Hs; subst nibble; cbn [call].
    - rewrite (@noteOn_bound port_send w port Hp), sent_after_send. eauto.
    - rewrite (@noteOff_bound port_send w port Hp), sent_after_send. eauto.
    - pose proof (@playNote_bound port_send w port Hp note velocity duration)
        as Hplay.
      cbv zeta in Hplay. rewrite Hplay.
      destruct (port_send port _); cbn; eauto.
    - rewrite (@sendCC_bound port_send w port Hp), sent_after_send. eauto.
    - rewrite (@sendProgramChange_bound port_send w port Hp), sent_after_send.
      eauto.
    - rewrite (proj1 (@sendPitchBend_bound port_send w port Hp value)),
        sent_after_send. eauto. }
  destruct Hshape as [data Hd]. exists data.
  rewrite Hd, Hch, add_lit. split; [reflexivity | split; [reflexivity | lia]].
Qed.

Lemma status_byte_round_trip_witness :
  exists (s : Z) (data : list num),
    sent (world_after
            (call always_ok (SendCC (lit 7) (lit 100))
               (start (constructor (Obj tr8s_port) (Some (lit 10))))))
    = [(tr8s_port, lit s :: data)]
    /\ Z.land s 0xF0 = 0xB0%Z
    /\ (Z.land s 0x0F + 1)%Z = 10%Z.
Proof.
  exact (@status_byte_round_trip always_ok
           (start (constructor (Obj tr8s_port) (Some (lit 10))))
           tr8s_port 10 (SendCC (lit 7) (lit 100)) 0xB0 eq_refl eq_refl).
Defined.

(* ================================================================== *)
(** ** BaseSynth: sequences of notes *)
(* ================================================================== *)

Section Sequences.

Variable port_send : MIDIOutput -> list num -> option exn.
Variable port : MIDIOutput.
Hypothesis accepts : forall data, port_send port data = None.

Lemma play_all_eq (notes : list (num * num * num)) (w : World) :
  midiOutput (this w) = Obj port ->
  play_all port_send notes w
  = ({| this := this w;
        sent := sent w ++ map (note_on_of port (channel (this w))) notes;
        timers := timers w ++ map timer_of notes |},
     Normal tt).
Proof.
  revert w. induction notes as [|[[note velocity] duration] rest IH];
    intros w Hp.
  - destruct w; cbn. now rewrite !app_nil_r.
  - cbn [play_all]. unfold bind.
    pose proof (@playNote_bound port_send w port Hp note velocity duration)
      as Hplay.
    cbv zeta in Hplay. rewrite accepts in Hplay. rewrite Hplay.
    rewrite IH by exact Hp. cbn [this sent timers map note_on_of timer_of].
    now rewrite <- !app_assoc.
Qed.

Lemma remove_nth_map (A B : Type) (f : A -> B) (k : nat) (l : list A) :
  remove_nth k (map f l) = map f (remove_nth k l).
Proof.
  revert k. induction l as [|a l IH]; intros k; [destruct k; reflexivity | ].
  destruct k as [|k]; [reflexivity | ]. cbn. now rewrite IH.
Qed.

Lemma remove_nth_none (A : Type) (k : nat) (l : list A) :
  nth_error l k = None -> remove_nth k l = l.
Proof.
  revert k. induction l as [|a l IH]; intros k H; [destruct k; reflexivity | ].
  destruct k as [|k]; [discriminate | ]. cbn. f_equal. now apply IH.
Qed.

Lemma remove_nth_perm (A : Type) (k : nat) (l : list A) (a : A) :
  nth_error l k = Some a -> Permutation (a :: remove_nth k l) l.
Proof.
  revert k. induction l as [|b l IH]; intros k H; [destruct k; discriminate | ].
  destruct k as [|k].
  - injection H as ->. reflexivity.
  - cbn [remove_nth]. rewrite perm_swap. apply perm_skip. now apply IH.
Qed.

(** A firing order takes each entry at most once: what it took and what
    it left make up the list. *)
Lemma fired_unfired_perm (A : Type) (ks : list nat) (l : list A) :
  Permutation (fired ks l ++ unfired ks l) l.
Proof.
  revert l. induction ks as [|k ks IH]; intros l; [reflexivity | ].
  cbn [fired unfired]. destruct (nth_error l k) as [a|] eqn:E.
  - cbn [app]. rewrite IH. now apply remove_nth_perm.
  - rewrite (remove_nth_none _ _ E). apply IH.
Qed.

Lemma fire_each_bound (ks : list nat) (notes : list (num * num * num))
      (w : World) :
  midiOutput (this w) = Obj port ->
  timers w = map timer_of notes ->
  fire_each port_send ks w
  = ({| this := this w;
        sent := sent w
                ++ map (note_off_of port (channel (this w))) (fired ks notes);
        timers := map timer_of (unfired ks notes) |},
     Normal tt).
Proof.
  revert notes w. induction ks as [|k ks IH]; intros notes w Hp Ht.
  - destruct w; cbn in *. subst. now rewrite app_nil_r.
  - cbn [fire_each fired unfired]. unfold bind.
    destruct (nth_error notes k) as [[[note velocity] duration]|] eqn:E.
    + assert (Hk : nth_error (timers w) k
                   = Some {| callback := ReleaseLater note;
                             delay := duration |}).
      { rewrite Ht, nth_error_map, E. reflexivity. }
      rewrite (@fire_release port_send w k note duration Hk), Hp, send_eq.
      rewrite accepts. cbn [send_completion].
      rewrite (IH (remove_nth k notes)); cbn [logged this sent timers];
        [ | exact Hp | now rewrite Ht, remove_nth_map].
      cbn [map note_off_of]. now rewrite <- app_assoc.
    + assert (Hk : nth_error (timers w) k = None).
      { rewrite Ht, nth_error_map, E. reflexivity. }
      unfold fire, bind, get. rewrite Hk. cbn [ret].
      rewrite (remove_nth_none _ _ E). now apply IH.
Qed.

Lemma fire_all_unbound (notes : list (num * num * num)) (w : World) :
  truthy (midiOutput (this w)) = false ->
  timers w = map timer_of notes ->
  fire_all port_send (List.length notes) w
  = ({| this := this w; sent := sent w; timers := [] |}, Normal tt).
Proof.
  revert w. induction notes as [|[[note velocity] duration] rest IH];
    intros w Hp Ht.
  - destruct w; cbn in *. now subst.
  - cbn [List.length fire_all]. unfold bind.
    assert (H0 : nth_error (timers w) 0
                 = Some {| callback := ReleaseLater note; delay := duration |})
      by now rewrite Ht.
    rewrite (@fire_release port_send w 0 note duration H0).
    destruct (midiOutput (this w)) eqn:E; try discriminate;
      (rewrite IH; cbn [this sent timers];
       [reflexivity | now rewrite E | now rewrite Ht]).
Qed.

(** X13: notes played one after the other on a port that takes every
    message are sent as note-ons in the order played, each leaving its own
    pending timer with its own note and delay (none is merged or dropped,
    also for a repeated pitch).  In whatever order the host then fires
    timers, with the port still bound, each firing takes one timer out
    and sends the note-off of that timer's note, with velocity 0; what
    was fired and what is still pending always make up the notes played,
    so once no timer is pending the note-offs sent are those of the notes
    played, each exactly once, in the order of firing. *)
Theorem every_note_is_released (notes : list (num * num * num)) (w : World)
        (ks : list nat) :
  midiOutput (this w) = Obj port ->
  timers w = [] ->
  let ch := channel (this w) in
  let w1 := world_after (play_all port_send notes w) in
  let w2 := world_after (fire_each port_send ks w1) in
  outcome (play_all port_send notes w) = Normal tt
  /\ sent w1 = sent w ++ map (note_on_of port ch) notes
  /\ timers w1 = map timer_of notes
  /\ outcome (fire_each port_send ks w1) = Normal tt
  /\ sent w2
     = sent w ++ map (note_on_of port ch) notes
       ++ map (note_off_of port ch) (fired ks notes)
  /\ timers w2 = map timer_of (unfired ks notes)
  /\ Permutation (fired ks notes ++ unfired ks notes) notes
  /\ (timers w2 = [] -> Permutation (fired ks notes) notes).
Proof.
  intros Hp Ht ch w1 w2. subst w2 w1 ch.
  rewrite (play_all_eq notes w Hp), Ht. cbn [world_after outcome fst snd].
  rewrite (@fire_each_bound ks notes) by (cbn; first [exact Hp | reflexivity]).
  cbn [world_after outcome fst snd this sent timers app].
  rewrite <- app_assoc.
  do 6 (split; [reflexivity | ]).
  split; [apply fired_unfired_perm | ].
  intros Hnil. apply map_eq_nil in Hnil.
  pose proof (fired_unfired_perm ks notes) as Hperm.
  now rewrite Hnil, app_nil_r in Hperm.
Qed.

(** X14: if the application clears [synth.midiOutput] after the notes were
    played and before their timers fire, the timers still fire and leave
    the pending list, but none sends anything: the log holds the note-ons
    only. *)
Theorem no_release_once_unbound (notes : list (num * num * num)) (w : World) :
  midiOutput (this w) = Obj port ->
  timers w = [] ->
  let w1 := world_after (play_all port_send notes w) in
  let w2 := world_after (set_midiOutput Null w1) in
  let w3 := world_after (fire_all port_send (List.length notes) w2) in
  outcome (fire_all port_send (List.length notes) w2) = Normal tt
  /\ sent w3 = sent w ++ map (note_on_of port (channel (this w))) notes
  /\ sent w3 = sent w1
  /\ timers w3 = [].
Proof.
  intros Hp Ht w1 w2 w3. subst w3 w2 w1.
  rewrite (play_all_eq notes w Hp), Ht. cbn [world_after outcome fst snd].
  rewrite fire_all_unbound by (cbn; reflexivity).
  cbn. repeat split; reflexivity.
Qed.

End Sequences.

(** Two notes whose timers run out in the opposite order. *)
Lemma every_note_is_released_witness :
  let notes := [(lit 60, lit 100, lit 50); (lit 64, lit 90, lit 10)] in
  let w := start (constructor (Obj sh4d_port) (Some (lit 1))) in
  sent (world_after
          (fire_each always_ok [1; 0]%nat
             (world_after (play_all always_ok notes w))))
  = [(sh4d_port, [lit 0x90; lit 60; lit 100]);
     (sh4d_port, [lit 0x90; lit 64; lit 90]);
     (sh4d_port, [lit 0x80; lit 64; lit 0]);
     (sh4d_port, [lit 0x80; lit 60; lit 0])]
  /\ Permutation [(lit 64, lit 90, lit 10); (lit 60, lit 100, lit 50)] notes.
Proof.
  intros notes w.
  pose proof (@every_note_is_released always_ok sh4d_port
                (fun _ => eq_refl) notes w [1; 0]%nat eq_refl eq_refl) as H.
  cbv zeta in H. destruct H as (_ & _ & _ & _ & Hs & _ & _ & Hp).
  split; [exact Hs | exact (Hp eq_refl)].
Defined.

Lemma no_release_once_unbound_witness :
  let notes := [(lit 60, lit 100, lit 50); (lit 64, lit 90, lit 10)] in
  let w := start (constructor (Obj sh4d_port) (Some (lit 1))) in
  sent (world_after
          (fire_all always_ok 2
             (world_after
                (set_midiOutput Null
                   (world_after (play_all always_ok notes w))))))
  = [(sh4d_port, [lit 0x90; lit 60; lit 100]);
     (sh4d_port, [lit 0x90; lit 64; lit 90])].
Proof.
  intros notes w.
  pose proof (@no_release_once_unbound always_ok sh4d_port
                (fun _ => eq_refl) notes w eq_refl eq_refl) as H.
  cbv zeta in H. destruct H as (_ & H & _). exact H.
Defined.

(* ================================================================== *)
(** ** The instrument classes *)
(* ================================================================== *)

(** X15: the ten instrument classes differ from [BaseSynth] only in the
    channel they take when none is given: built with a channel they are
    the [BaseSynth] of that port and channel; built without one, the drum
    machines (TR8S, RD6, RD8, RD9) store channel 9 and send note-ons with
    status 0x99, and the others store channel 0 and send 0x90. *)
Theorem instrument_channels
        (port_send : MIDIOutput -> list num -> option exn)
        (i : Instrument) (port : MIDIOutput) (note velocity : num) :
  (forall (p : ref MIDIOutput) (c : num),
      new_instrument i p (Some c) = constructor p (Some c))
  /\ midiOutput (new_instrument i (Obj port) None) = Obj port
  /\ channel (new_instrument i (Obj port) None)
     = (if is_drum_machine i then lit 9 else lit 0)
  /\ sent (world_after
             (noteOn port_send note velocity
                (start (new_instrument i (Obj port) None))))
     = [(port, [if is_drum_machine i then lit 0x99 else lit 0x90;
                clamp7 note; clamp7 velocity])].
Proof.
  split; [ | split; [ | split]].
  - intros p c. destruct i; reflexivity.
  - destruct i; reflexivity.
  - destruct i; reflexivity.
  - assert (Hp : midiOutput (this (start (new_instrument i (Obj port) None)))
                 = Obj port) by (destruct i; reflexivity).
    rewrite (@noteOn_bound port_send _ port Hp), sent_after_send.
    destruct i; reflexivity.
Qed.

(* ================================================================== *)
(** ** MidiManager: integer indices *)
(* ================================================================== *)

(** An index without a fractional part that passes the range test reads
    an element of the list. *)
Lemma array_get_whole (A : Type) (l : list A) (q : Q) :
  is_fractional q = false ->
  index_in_range (Fin q) (List.length l) = true ->
  exists a, array_get l (Fin q) = Obj a.
Proof.
  unfold is_fractional, index_in_range, array_get. intros Hf Hr.
  apply negb_false_iff in Hf. rewrite Hf.
  apply andb_prop in Hr as [H0 H1].
  apply Qle_bool_iff in H0.
  assert (Hlt : q < inject_Z (Z.of_nat (List.length l))).
  { apply Qnot_le_lt. intros Hle. apply Qle_bool_iff in Hle.
    rewrite Hle in H1. discriminate. }
  assert (Hz0 : (0 <= Qfloor q)%Z).
  { change 0%Z with (Qfloor 0). now apply Qfloor_resp_le. }
  assert (Hz1 : (Qfloor q < Z.of_nat (List.length l))%Z).
  { rewrite Zlt_Qlt. eapply Qle_lt_trans; [apply Qfloor_le | exact Hlt]. }
  replace (0 <=? Qfloor q)%Z with true by (symmetry; now apply Z.leb_le).
  cbn [andb].
  destruct (nth_error l (Z.to_nat (Qfloor q))) as [a|] eqn:E; [now exists a | ].
  apply nth_error_None in E. lia.
Qed.

Lemma whole_index_step (op : Mgr.Op) (w : Mgr.World) :
  whole_index op = true ->
  Mgr.midiOutput (Mgr.this w) <> Undefined ->
  Mgr.midiOutput (Mgr.this (Mgr.run_op op w)) <> Undefined.
Proof.
  intros Hop Hw.
  destruct (assigns_midiOutput op) eqn:Ea.
  - destruct op; try discriminate Ea; cbn [Mgr.run_op]; [ | discriminate].
    rewrite connect_eq.
    destruct (truthy _ && index_in_range deviceIndex _) eqn:Ec;
      [ | exact Hw].
    apply andb_prop in Ec as [_ Hr]. cbn.
    destruct deviceIndex as [| | |q]; try discriminate.
    cbn in Hop. apply negb_true_iff in Hop.
    destruct (@array_get_whole _ (Mgr.devices (Mgr.this w)) q Hop Hr)
      as [a ->].
    discriminate.
  - now rewrite midiOutput_step.
Qed.

Lemma whole_index_run (tr : list Mgr.Op) (w : Mgr.World) :
  Mgr.midiOutput (Mgr.this w) <> Undefined ->
  forallb whole_index tr = true ->
  Mgr.midiOutput (Mgr.this (Mgr.run_ops tr w)) <> Undefined.
Proof.
  revert w. induction tr as [|op tr IH]; intros w H0 Htr; [exact H0 | ].
  cbn [forallb] in Htr. apply andb_prop in Htr as [Hop Htr].
  rewrite run_ops_cons. apply IH; [ | exact Htr].
  now apply whole_index_step.
Qed.

(** X16: as long as no [connect] was given a fractional index, a manager
    reached from [new MidiManager()] is never connected to [undefined]:
    either nothing is connected, [isConnected()] is [false] and
    [getConnectedDeviceName()] is [null], or a port is, [isConnected()]
    is [true] and the name is that port's. *)
Theorem connection_queries_agree (tr : list Mgr.Op) :
  forallb whole_index tr = true ->
  let w := Mgr.run_ops tr Mgr.fresh in
  match Mgr.midiOutput (Mgr.this w) with
  | Null =>
      outcome (Mgr.isConnected w) = Normal false
      /\ outcome (Mgr.getConnectedDeviceName w) = Normal Null
  | Obj port =>
      outcome (Mgr.isConnected w) = Normal true
      /\ outcome (Mgr.getConnectedDeviceName w) = Normal (Obj (name port))
  | Undefined => False
  end.
Proof.
  intros H w.
  assert (Hu : Mgr.midiOutput (Mgr.this w) <> Undefined).
  { subst w. apply whole_index_run; [discriminate | exact H]. }
  unfold Mgr.isConnected, Mgr.getConnectedDeviceName, bind, get. cbn.
  destruct (Mgr.midiOutput (Mgr.this w)); [split; reflexivity | congruence | split; reflexivity].
Qed.

Lemma connection_queries_agree_witness :
  let access := {| outputs := [sh4d_port; tr8s_port]; onstatechange := false |} in
  let w := Mgr.run_ops
             [Mgr.Initialize (Resolves access); Mgr.Connect (lit 1);
              Mgr.Connect (lit 5)] Mgr.fresh in
  outcome (Mgr.isConnected w) = Normal true
  /\ outcome (Mgr.getConnectedDeviceName w) = Normal (Obj "TR-8S"%string).
Proof.
  intros access w.
  exact (@connection_queries_agree
           [Mgr.Initialize (Resolves access); Mgr.Connect (lit 1);
            Mgr.Connect (lit 5)] eq_refl).
Defined.
